(** * Content-based movie recommender: the notebook's pipeline and queries

    A shallow embedding of [analysis.ipynb]: the pandas frames are lists of
    records in row order, the notebook's globals form a record that the
    queries read (and, for [recommend_movies], write), and the numbers are
    exact: ratings and profiles are canonical rationals ([Qc]), similarity
    scores are reals.  Floating-point rounding is not modelled; a division
    by a zero rating mass, which pandas turns into [NaN]/[inf] entries, is
    modelled by an absent vector.  Titles and genre fields are strings from
    the start, so the two [astype(str)] conversions are the identity, and
    [reset_index] has nothing to do on a list. *)

From Stdlib Require Import Ascii String QArith Qcanon Reals Qreals Lra Lia.
From stdpp Require Import gmap strings list sorting.

Open Scope Z_scope.

(** ** Frames *)

(** One row of the working frame [df].  The two type parameters follow the
    columns whose type changes along the notebook: [timestamp] (an integer
    until the column is dropped, [unit] afterwards) and [genres] (the raw
    string, the list produced by [str.split], one label after [explode],
    the block of dummy columns after [get_dummies]). *)
Record row (T G : Type) : Type := Row {
  userId : Z;
  movieId : Z;
  rating : Qc;
  timestamp : T;
  title : string;
  genres : G
}.
Arguments Row {T G} _ _ _ _ _ _.
Arguments userId {T G} _.
Arguments movieId {T G} _.
Arguments rating {T G} _.
Arguments timestamp {T G} _.
Arguments title {T G} _.
Arguments genres {T G} _.

Global Instance row_eq_dec {T G} `{EqDecision T, EqDecision G} :
  EqDecision (row T G).
Proof. solve_decision. Defined.

(** [ratings.csv] *)
Record rating_row : Type := RatingRow {
  r_userId : Z;
  r_movieId : Z;
  r_rating : Qc;
  r_timestamp : Z
}.

(** [movies.csv] *)
Record movie_row : Type := MovieRow {
  m_movieId : Z;
  m_title : string;
  m_genres : string
}.

Global Instance rating_row_eq_dec : EqDecision rating_row.
Proof. solve_decision. Defined.
Global Instance movie_row_eq_dec : EqDecision movie_row.
Proof. solve_decision. Defined.

(** ** Frame operations *)

(** [ratings.merge(movies, on="movieId")]: inner join, left row order kept,
    one output row per matching pair. *)
Definition merge (ratings : list rating_row) (movies : list movie_row)
  : list (row Z string) :=
  r ← ratings;
  m ← movies;
  if decide (r_movieId r = m_movieId m)
  then [Row (r_userId r) (r_movieId r) (r_rating r) (r_timestamp r)
            (m_title m) (m_genres m)]
  else [].

(** Python's [s.split(sep)] for a one-character separator: the result is
    never empty, and the empty string splits into one empty label. *)
Fixpoint str_split (sep : ascii) (s : string) : list string :=
  match s with
  | EmptyString => [EmptyString]
  | String c s' =>
      if decide (c = sep) then EmptyString :: str_split sep s'
      else match str_split sep s' with
           | [] => [String c EmptyString]
           | w :: ws => String c w :: ws
           end
  end.

(** [df["genres"] = df["genres"].str.split("|")] *)
Definition split_genres {T} (df : list (row T string))
  : list (row T (list string)) :=
  (λ r : row T string,
     Row (userId r) (movieId r) (rating r) (timestamp r) (title r)
         (str_split "|" (genres r))) <$> df.

(** [df.explode("genres")]: one row per element of the list, in list order.
    (A row with an empty list would get a missing label; [str_split] never
    returns one.) *)
Definition explode {T} (df : list (row T (list string)))
  : list (row T string) :=
  r ← df;
  (λ g, Row (userId r) (movieId r) (rating r) (timestamp r) (title r) g)
    <$> genres r.

(** [df.drop("timestamp", axis=1)] *)
Definition drop_timestamp {T G} (df : list (row T G)) : list (row unit G) :=
  (λ r : row T G,
     Row (userId r) (movieId r) (rating r) tt (title r) (genres r)) <$> df.

(** [drop_duplicates] with [keep="first"]: a row is kept when its key has not
    been seen on an earlier row. *)
Fixpoint drop_duplicates_from {A K} `{EqDecision K} (key : A → K)
    (seen : list K) (l : list A) : list A :=
  match l with
  | [] => []
  | x :: l' =>
      if decide (key x ∈ seen) then drop_duplicates_from key seen l'
      else x :: drop_duplicates_from key (key x :: seen) l'
  end.

Definition drop_duplicates_by {A K} `{EqDecision K} (key : A → K)
    (l : list A) : list A :=
  drop_duplicates_from key [] l.

(** [df.drop_duplicates()]: the whole row is the key. *)
Definition drop_duplicates {A} `{EqDecision A} (l : list A) : list A :=
  drop_duplicates_by (λ x, x) l.

Definition no_genres_listed : string := "(no genres listed)".

(** The cleaned, exploded frame [df] as it stands before [get_dummies]. *)
Definition clean (ratings : list rating_row) (movies : list movie_row)
  : list (row unit string) :=
  filter (λ r : row unit string, genres r ≠ no_genres_listed)
    (drop_duplicates
      (drop_timestamp (explode (split_genres (merge ratings movies))))).

(** ** One-hot encoding *)

(** The categories of the [genres] column: its distinct values, sorted. *)
Definition categories {T} (df : list (row T string)) : list string :=
  merge_sort String.le (drop_duplicates (genres <$> df)).

Definition one_hot (cats : list string) (g : string) : list Z :=
  (λ c, if decide (c = g) then 1 else 0) <$> cats.

(** A frame after [get_dummies]: the labels of the dummy columns and the
    rows, whose [genres] field now holds the dummy block. *)
Record dummies_frame : Type := DummiesFrame {
  dummy_columns : list string;
  rows : list (row unit (list Z))
}.

(** [pd.get_dummies(df, columns=["genres"], dtype=int)] *)
Definition get_dummies (df : list (row unit string)) : dummies_frame :=
  let cats := categories df in
  {| dummy_columns := (λ c, "genres_" +:+ c) <$> cats;
     rows := (λ r : row unit string,
                Row (userId r) (movieId r) (rating r) tt (title r)
                    (one_hot cats (genres r))) <$> df |}.

Definition columns (d : dummies_frame) : list string :=
  ["userId"; "movieId"; "rating"; "title"] ++ dummy_columns d.

(** [[col for col in df_genres.columns if col.startswith("genres_")]] *)
Definition genre_cols_of (d : dummies_frame) : list string :=
  filter (λ col, String.prefix "genres_" col = true) (columns d).

(** ** User profiles *)

Definition sum_Qc (l : list Qc) : Qc := foldr Qcplus (Q2Qc 0) l.

(** [user_df[genre_cols].multiply(user_df["rating"], axis=0)]: since
    [genre_cols] lists the dummy columns in frame order, the selection is the
    dummy block itself. *)
Definition multiply (user_df : list (row unit (list Z))) : list (list Qc) :=
  (λ r : row unit (list Z), (λ d, (Qc_of_Z d * rating r)%Qc) <$> genres r)
    <$> user_df.

(** Column sums of a frame with [n] columns. *)
Definition column_sums (n : nat) (m : list (list Qc)) : list Qc :=
  foldr (zip_with Qcplus) (replicate n (Q2Qc 0)) m.

(** [get_user_profile]: [None] stands for the vector of [NaN]/[inf] entries
    that the division produces when the ratings sum to zero. *)
Definition get_user_profile (n : nat) (user_df : list (row unit (list Z)))
  : option (list Qc) :=
  let rated_genres := multiply user_df in
  let total := sum_Qc (rating <$> user_df) in
  if decide (total = Q2Qc 0) then None
  else Some ((λ x, (x / total)%Qc) <$> column_sums n rated_genres).

(** [df_genres.groupby("userId").apply(get_user_profile)]: one entry per
    distinct user id, computed from that user's rows in frame order. *)
Definition build_user_profiles (d : dummies_frame)
  : gmap Z (option (list Qc)) :=
  list_to_map
    ((λ u, (u, get_user_profile (length (genre_cols_of d))
                 (filter (λ r : row unit (list Z), userId r = u) (rows d))))
       <$> (userId <$> rows d)).

(** ** Movie features *)

Record feature : Type := Feature {
  f_movieId : Z;
  f_title : string;
  f_genres : list Z
}.

(** [movie_features]: the rows indexed by [movieId] and, once a
    recommendation has been computed, the [similarity] column. *)
Record movie_frame : Type := MovieFrame {
  mf_rows : list feature;
  mf_similarity : option (list R)
}.

(** [df_genres.drop_duplicates("movieId")[["movieId", "title"] + genre_cols]
      .set_index("movieId")] *)
Definition build_movie_features (d : dummies_frame) : movie_frame :=
  {| mf_rows := (λ r : row unit (list Z),
                   Feature (movieId r) (title r) (genres r))
                  <$> drop_duplicates_by movieId (rows d);
     mf_similarity := None |}.

(** ** The notebook's globals *)

Record env : Type := Env {
  df_genres : dummies_frame;
  genre_cols : list string;
  user_profiles : gmap Z (option (list Qc));
  movie_features : movie_frame
}.

Definition build_model (ratings : list rating_row) (movies : list movie_row)
  : env :=
  let d := get_dummies (clean ratings movies) in
  {| df_genres := d;
     genre_cols := genre_cols_of d;
     user_profiles := build_user_profiles d;
     movie_features := build_movie_features d |}.

(** ** Cosine similarity

    [sklearn.metrics.pairwise.cosine_similarity] is library code; the model
    follows its implementation: validate the two arrays, L2-normalise their
    rows (a zero norm is replaced by 1 before dividing), multiply. *)

Open Scope R_scope.

Global Instance R_eq_dec : EqDecision R := Req_dec_T.
Global Instance Rlt_decision : RelDecision Rlt := Rlt_dec.

Definition Qc2R (q : Qc) : R := Q2R (this q).

Definition sum_R (l : list R) : R := foldr Rplus 0 l.

Definition row_norms (x : list R) : R := sqrt (sum_R ((λ a, a * a) <$> x)).

(** A zero norm is replaced by 1 before the division.  (The library also
    does so for norms below ten machine epsilons; rounding is not
    modelled.) *)
Definition handle_zeros_in_scale (s : R) : R :=
  if decide (s = 0) then 1 else s.

Definition normalize (x : list R) : list R :=
  (λ a, a / handle_zeros_in_scale (row_norms x)) <$> x.

Definition dot (x y : list R) : R := sum_R (zip_with Rmult x y).

(** The similarity of one pair of rows. *)
Definition similarity (x y : list R) : R := dot (normalize x) (normalize y).

Inductive exn : Type := KeyError | ValueError | IndexError.

Definition n_features (M : list (list R)) : nat :=
  match M with [] => 0%nat | x :: _ => length x end.

(** [check_pairwise_arrays]: at least one sample and one feature on each
    side, and the same number of features. *)
Definition check_pairwise_arrays (X Y : list (list R)) : bool :=
  bool_decide (X ≠ [] ∧ Y ≠ [] ∧ (0 < n_features X)%nat
               ∧ n_features X = n_features Y).

(** A float array is given by its values when they are all finite; [None]
    is an array with a [NaN] or [inf] entry, which the validation rejects. *)
Definition cosine_similarity (X : option (list (list R))) (Y : list (list R))
  : exn + list (list R) :=
  match X with
  | None => inl ValueError
  | Some X =>
      if check_pairwise_arrays X Y
      then inr ((λ x, (λ y, similarity x y) <$> Y) <$> X)
      else inl ValueError
  end.

(** ** Queries *)

(** [sort_values(key, ascending=False)]: rows with a larger key first.  No
    second key is given; rows with equal keys are left in frame order, which
    is what the default sort does on short frames (on long ones it gives no
    guarantee about ties, and no theorem below relies on one). *)
Fixpoint insert_desc {A} (key : A → R) (x : A) (l : list A) : list A :=
  match l with
  | [] => [x]
  | y :: l' =>
      if decide (key x < key y) then y :: insert_desc key x l'
      else x :: y :: l'
  end.

Definition sort_values {A} (key : A → R) (l : list A) : list A :=
  foldr (insert_desc key) [] l.

(** [DataFrame.head(n)]: the first [n] rows, or all but the last [-n] rows
    when [n] is negative. *)
Definition df_head {A} (n : Z) (l : list A) : list A :=
  if decide (0 ≤ n)%Z then take (Z.to_nat n) l
  else take (length l - Z.to_nat (- n)) l.

(** [movie_features.loc[movie_id]] on the [movieId] index. *)
Definition loc (movie_id : Z) (mf : movie_frame) : option feature :=
  head (filter (λ f : feature, f_movieId f = movie_id) (mf_rows mf)).

(** [user_profiles.loc[user_id].values.reshape(1, -1)] *)
Definition reshape_row (p : option (list Qc)) : option (list (list R)) :=
  (λ v : list Qc, [Qc2R <$> v]) <$> p.

(** [movie_features[genre_cols].values] *)
Definition movie_vectors_of (mf : movie_frame) : list (list R) :=
  (λ f : feature, IZR <$> f_genres f) <$> mf_rows mf.

(** [recommend_movies(user_id, top_n)].  The result is the returned frame
    (each row with its [similarity] value) or the raised exception, together
    with the notebook's globals after the call. *)
Definition recommend_movies (e : env) (user_id : Z) (top_n : Z)
  : (exn + list (feature * R)) * env :=
  match user_profiles e !! user_id with
  | None => (inl KeyError, e)
  | Some p =>
      let user_vector := reshape_row p in
      let movie_vectors := movie_vectors_of (movie_features e) in
      match cosine_similarity user_vector movie_vectors with
      | inl err => (inl err, e)
      | inr K =>
          let similarity_scores := concat K in
          let movie_features' :=
            {| mf_rows := mf_rows (movie_features e);
               mf_similarity := Some similarity_scores |} in
          let e' :=
            {| df_genres := df_genres e;
               genre_cols := genre_cols e;
               user_profiles := user_profiles e;
               movie_features := movie_features' |} in
          let already_rated :=
            movieId <$> filter (λ r : row unit (list Z), userId r = user_id)
                               (rows (df_genres e)) in
          let recommendations :=
            filter (λ fs : feature * R, f_movieId fs.1 ∉ already_rated)
                   (zip (mf_rows movie_features') similarity_scores) in
          (inr (df_head top_n (sort_values snd recommendations)), e')
      end
  end.

(** [predict_rating(user_id, movie_id)] *)
Definition predict_rating (e : env) (user_id movie_id : Z) : exn + R :=
  match user_profiles e !! user_id with
  | None => inl KeyError
  | Some p =>
      let user_vector := reshape_row p in
      match loc movie_id (movie_features e) with
      | None => inl KeyError
      | Some f =>
          let movie_vector := [IZR <$> f_genres f] in
          match cosine_similarity user_vector movie_vector with
          | inl err => inl err
          | inr K =>
              match concat K with
              | [] => inl IndexError
              | similarity_score :: _ =>
                  inr (similarity_score
                       * sum_R (concat (default [] user_vector)))
              end
          end
      end
  end.

Close Scope R_scope.

(** * Notions used in the statements *)

(** ** Intermediate frames *)

(** The exploded row that a rating row and a movie row contribute for one
    label of the movie's genre field. *)
Definition joined (r : rating_row) (m : movie_row) (g : string)
  : row unit string :=
  Row (r_userId r) (r_movieId r) (r_rating r) tt (m_title m) g.

(** The exploded rows that one rating row contributes, in frame order. *)
Definition exploded_block (movies : list movie_row) (r : rating_row)
  : list (row unit string) :=
  m ← movies;
  if decide (r_movieId r = m_movieId m)
  then joined r m <$> str_split "|" (m_genres m)
  else [].

(** The row of [df_genres] that encodes a row of [df]. *)
Definition encode (cats : list string) (r : row unit string)
  : row unit (list Z) :=
  Row (userId r) (movieId r) (rating r) tt (title r)
      (one_hot cats (genres r)).

Definition to_feature (r : row unit (list Z)) : feature :=
  Feature (movieId r) (title r) (genres r).

Definition title_genre (x : row unit string) : string * string :=
  (title x, genres x).

(** The first label of a movie row that is not the sentinel. *)
Definition first_label (m : movie_row) : option string :=
  head (filter (λ g, g ≠ no_genres_listed) (str_split "|" (m_genres m))).

(** Title and label of the first movie row with the given id that has a
    label other than the sentinel. *)
Definition catalog_entry (movies : list movie_row) (id : Z)
  : option (string * string) :=
  head (omap (λ m, if decide (m_movieId m = id)
                   then (λ g, (m_title m, g)) <$> first_label m
                   else None) movies).

(** The rating mass that a frame puts on a label. *)
Definition genre_mass (g : string) (df : list (row unit string)) : Qc :=
  sum_Qc (rating <$> filter (λ r : row unit string, genres r = g) df).

(** ** Recommendation *)

(** The ids of the movies that a user's raw rating events mention. *)
Definition raw_rated (ratings : list rating_row) (user_id : Z) : list Z :=
  r_movieId <$> filter (λ r, r_userId r = user_id) ratings.

(** The ids under which the cleaned frame holds a row of the user. *)
Definition already_rated_of (e : env) (user_id : Z) : list Z :=
  movieId <$> filter (λ r : row unit (list Z), userId r = user_id)
                     (rows (df_genres e)).

(** The scores of the catalog rows against profile [p], in catalog order. *)
Definition scores_of (e : env) (p : list Qc) : list R :=
  similarity (Qc2R <$> p) <$> movie_vectors_of (movie_features e).

(** The catalog rows that the user has no cleaned row for, scored. *)
Definition candidates (e : env) (user_id : Z) (p : list Qc)
  : list (feature * R) :=
  filter (λ fs : feature * R, f_movieId fs.1 ∉ already_rated_of e user_id)
         (zip (mf_rows (movie_features e)) (scores_of e p)).

(** The globals after a recommendation for profile [p]. *)
Definition with_similarity (e : env) (p : list Qc) : env :=
  {| df_genres := df_genres e;
     genre_cols := genre_cols e;
     user_profiles := user_profiles e;
     movie_features :=
       {| mf_rows := mf_rows (movie_features e);
          mf_similarity := Some (scores_of e p) |} |}.

(** Descending order on a real-valued key. *)
Definition desc {A} (key : A → R) (a b : A) : Prop := (key b <= key a)%R.

(** The squared norm of a row. *)
Definition sum_squares (x : list R) : R := sum_R ((λ a, (a * a)%R) <$> x).

(** ** The specification's wording *)

(** The vector the specification describes: a 1 in the column of every label
    of the movie's genre set. *)
Definition spec_catalog_vector (cats genre_set : list string) : list Z :=
  (λ c, if decide (c ∈ genre_set) then 1 else 0) <$> cats.

(** The rating events behind a frame of one user's exploded rows: the
    distinct (movie, rating, title) triples, each with the labels of its
    rows, which is the genre set of the movie. *)
Definition event_of (x : row unit string) : Z * Qc * string :=
  (movieId x, rating x, title x).

Definition user_events (user_df : list (row unit string))
  : list (list string * Qc) :=
  (λ ev : Z * Qc * string,
     (genres <$> filter (λ x, event_of x = ev) user_df, ev.1.2))
    <$> drop_duplicates (event_of <$> user_df).

(** Componentwise sum of the events' genre vectors, each weighted by its
    rating. *)
Definition weighted_vectors (cats : list string)
    (events : list (list string * Qc)) : list Qc :=
  column_sums (length cats)
    ((λ ev : list string * Qc,
        (λ d, (Qc_of_Z d * ev.2)%Qc) <$> spec_catalog_vector cats ev.1)
       <$> events).

(** The profile as the specification words it: the rating-weighted mean of
    the full binary genre vectors of the rated movies, each rating counted
    once. *)
Definition spec_profile (cats : list string)
    (events : list (list string * Qc)) : list Qc :=
  (λ x, (x / sum_Qc (snd <$> events))%Qc) <$> weighted_vectors cats events.

(** The rating mass of the exploded rows: each rating counted once per label
    of its movie. *)
Definition exploded_mass (events : list (list string * Qc)) : Qc :=
  sum_Qc ((λ ev : list string * Qc,
             (Qc_of_Z (Z.of_nat (length ev.1)) * ev.2)%Qc) <$> events).

(** ** Instances *)

(** The worked scenario: movie 1 is Action and Comedy, movie 2 Comedy, movie
    3 Action; user 7 rated movie 1 with 4 and movie 2 with 2.  (Movie 3 is in
    the catalog because user 8 rated it: the catalog is cut from the rated
    rows.) *)
Definition ex_movies : list movie_row :=
  [MovieRow 1 "One" "Action|Comedy"; MovieRow 2 "Two" "Comedy";
   MovieRow 3 "Three" "Action"].
Definition ex_ratings : list rating_row :=
  [RatingRow 7 1 (Q2Qc 4) 100; RatingRow 7 2 (Q2Qc 2) 101;
   RatingRow 8 3 (Q2Qc 5) 102].
Definition ex_env : env := build_model ex_ratings ex_movies.

(** User 7's events in the worked scenario. *)
Definition ex_events_7 : list (list string * Qc) :=
  [(["Action"; "Comedy"], Q2Qc 4); (["Comedy"], Q2Qc 2)]%string.

(** Three single-genre movies; user 1 rated movie 9 only, so movies 5 and 3
    (in this catalog order) tie. *)
Definition tie_movies : list movie_row :=
  [MovieRow 9 "Nine" "Action"; MovieRow 5 "Five" "Action";
   MovieRow 3 "Three" "Action"].
Definition tie_ratings : list rating_row :=
  [RatingRow 1 9 (Q2Qc 4) 100; RatingRow 2 5 (Q2Qc 3) 101;
   RatingRow 2 3 (Q2Qc 3) 102].

(** Two single-genre movies rated 1/2 each, by two users. *)
Definition half_movies : list movie_row :=
  [MovieRow 10 "Ten" "Drama"; MovieRow 20 "Twenty" "Drama"].
Definition half_ratings : list rating_row :=
  [RatingRow 1 10 (Q2Qc (1 # 2)) 100; RatingRow 2 20 (Q2Qc (1 # 2)) 101].

(** One movie id on two rows that disagree on the genre. *)
Definition dup_ratings : list rating_row := [RatingRow 7 1 (Q2Qc 4) 100].
Definition dup_movies : list movie_row :=
  [MovieRow 1 "One" "Action"; MovieRow 1 "One" "Comedy"].

(** Globals set by hand rather than by the pipeline: two catalog movies and
    one user whose stored vector is not normalised (its components sum to
    4). *)
Definition scaled_env : env :=
  {| df_genres :=
       {| dummy_columns := ["genres_Action"; "genres_Comedy"]; rows := [] |};
     genre_cols := ["genres_Action"; "genres_Comedy"];
     user_profiles := {[ 1%Z := Some [Q2Qc 3; Q2Qc 1] ]};
     movie_features :=
       {| mf_rows := [Feature 10 "Ten" [1; 0]%Z; Feature 20 "Twenty" [0; 1]%Z];
          mf_similarity := None |} |}.

(** * Diagnostics and further notions *)

(** [Series.unique()]: the distinct values, in order of first appearance. *)
Definition unique {A} `{EqDecision A} (l : list A) : list A :=
  drop_duplicates l.

(** [Series.nunique()] *)
Definition nunique {A} `{EqDecision A} (l : list A) : nat :=
  length (unique l).

(** [df_genres.shape]: rows and columns. *)
Definition shape (d : dummies_frame) : nat * nat :=
  (length (rows d), length (columns d)).

(** The frame [df] after [drop_duplicates], before the sentinel rows are
    removed. *)
Definition deduplicated (ratings : list rating_row) (movies : list movie_row)
  : list (row unit string) :=
  drop_duplicates
    (drop_timestamp (explode (split_genres (merge ratings movies)))).

(** [filtered_df = df[df["genres"] == "(no genres listed)"]] *)
Definition filtered_df (ratings : list rating_row) (movies : list movie_row)
  : list (row unit string) :=
  filter (λ r : row unit string, genres r = no_genres_listed)
         (deduplicated ratings movies).

(** Python's [sep.join(labels)], the inverse of [split]. *)
Fixpoint str_join (sep : ascii) (l : list string) : string :=
  match l with
  | [] => EmptyString
  | [w] => w
  | w :: l' => w +:+ String sep (str_join sep l')
  end.

(** The characters of a string. *)
Fixpoint chars (s : string) : list ascii :=
  match s with
  | EmptyString => []
  | String c s' => c :: chars s'
  end.

Definition sum_Z (l : list Z) : Z := foldr Z.add 0 l.

(** The rating row inside a row of the merged frame. *)
Definition to_rating (x : row Z string) : rating_row :=
  RatingRow (userId x) (movieId x) (rating x) (timestamp x).

(** One user whose only rating is zero. *)
Definition zero_ratings : list rating_row := [RatingRow 1 10 (Q2Qc 0) 100].

(** * Properties *)

(** Closes a goal about a concrete model by evaluating it. *)
Ltac by_evaluation := vm_compute; done.

(** Picks the profile that a concrete model holds for a user. *)
Ltac pick_profile := eexists; by_evaluation.

(** ** Frame operations *)

Section drop_duplicates_facts.
Context {A K : Type} `{EqDecision K} (key : A → K).

Lemma elem_of_drop_duplicates_from seen l x :
  x ∈ drop_duplicates_from key seen l → x ∈ l ∧ key x ∉ seen.
Proof.
  revert seen. induction l as [|y l IH]; intros seen; simpl.
  - by intros ?%elem_of_nil.
  - case_decide as Hy.
    + intros [? ?]%IH. split; [by right|done].
    + intros [->|[? Hx]%IH]%elem_of_cons.
      * split; [by left|done].
      * split; [by right|]. intros ?. apply Hx. by right.
Qed.

Lemma drop_duplicates_from_keeps_key seen l x :
  x ∈ l → key x ∉ seen →
  key x ∈ key <$> drop_duplicates_from key seen l.
Proof.
  revert seen. induction l as [|y l IH]; intros seen; simpl.
  - by intros ?%elem_of_nil.
  - intros [->|Hx]%elem_of_cons Hseen.
    + rewrite decide_False by done. by left.
    + case_decide as Hy; [by apply IH|].
      rewrite fmap_cons. destruct (decide (key x = key y)) as [->|Hne].
      * by left.
      * right. apply IH; [done|]. by intros [?|?]%elem_of_cons.
Qed.

Lemma NoDup_drop_duplicates_from seen l :
  NoDup (key <$> drop_duplicates_from key seen l).
Proof.
  revert seen. induction l as [|y l IH]; intros seen; simpl.
  - constructor.
  - case_decide as Hy; [apply IH|].
    rewrite fmap_cons. constructor; [|apply IH].
    intros (z & Hz & Hin)%list_elem_of_fmap.
    apply elem_of_drop_duplicates_from in Hin as [_ Hin].
    apply Hin. rewrite Hz. by left.
Qed.

(** Of the rows that share a key, exactly the first one survives. *)
Lemma filter_drop_duplicates_from seen l k :
  filter (λ x, key x = k) (drop_duplicates_from key seen l)
  = if decide (k ∈ seen) then []
    else option_list (head (filter (λ x, key x = k) l)).
Proof.
  revert seen. induction l as [|y l IH]; intros seen; simpl.
  - by case_decide.
  - destruct (decide (key y ∈ seen)) as [Hy|Hy].
    + rewrite IH. case_decide as Hk; [done|].
      rewrite filter_cons. case_decide as Hyk; [|done]. congruence.
    + rewrite !filter_cons. destruct (decide (key y = k)) as [Hyk|Hyk].
      * rewrite IH. rewrite (decide_True (P := k ∈ key y :: seen)).
        -- rewrite decide_False by congruence. done.
        -- rewrite Hyk. by left.
      * rewrite IH. destruct (decide (k ∈ seen)) as [Hk|Hk].
        -- rewrite decide_True; [done|by right].
        -- rewrite decide_False; [done|].
           intros [?|?]%elem_of_cons; congruence.
Qed.

Lemma head_filter_drop_duplicates_by l k :
  head (filter (λ x, key x = k) (drop_duplicates_by key l))
  = head (filter (λ x, key x = k) l).
Proof.
  unfold drop_duplicates_by. rewrite filter_drop_duplicates_from.
  rewrite decide_False by apply not_elem_of_nil.
  by destruct (filter _ l).
Qed.

Lemma elem_of_drop_duplicates_by l x :
  x ∈ drop_duplicates_by key l → x ∈ l.
Proof. by intros [? _]%elem_of_drop_duplicates_from. Qed.

Lemma drop_duplicates_by_keeps_key l x :
  x ∈ l → key x ∈ key <$> drop_duplicates_by key l.
Proof.
  intros ?. apply drop_duplicates_from_keeps_key; [done|].
  apply not_elem_of_nil.
Qed.
End drop_duplicates_facts.

Lemma elem_of_drop_duplicates {A} `{EqDecision A} (l : list A) x :
  x ∈ drop_duplicates l ↔ x ∈ l.
Proof.
  split; [apply elem_of_drop_duplicates_by|].
  intros Hx. apply (drop_duplicates_by_keeps_key (λ y, y)) in Hx.
  by rewrite list_fmap_id in Hx.
Qed.

Lemma NoDup_drop_duplicates {A} `{EqDecision A} (l : list A) :
  NoDup (drop_duplicates l).
Proof.
  pose proof (NoDup_drop_duplicates_from (λ y : A, y) [] l) as Hnd.
  by rewrite list_fmap_id in Hnd.
Qed.

(** ** The cleaning pipeline *)

Lemma elem_of_merge ratings movies x :
  x ∈ merge ratings movies ↔
  ∃ r m, r ∈ ratings ∧ m ∈ movies ∧ r_movieId r = m_movieId m
         ∧ x = Row (r_userId r) (r_movieId r) (r_rating r) (r_timestamp r)
                   (m_title m) (m_genres m).
Proof.
  unfold merge. rewrite list_elem_of_bind. split.
  - intros (r & (m & Hx & Hm)%list_elem_of_bind & Hr).
    case_decide; [|by apply elem_of_nil in Hx].
    apply list_elem_of_singleton in Hx. eauto 10.
  - intros (r & m & Hr & Hm & Heq & ->).
    exists r. split; [|done]. apply list_elem_of_bind. exists m.
    split; [|done]. rewrite decide_True by done. by left.
Qed.

Lemma elem_of_clean ratings movies x :
  x ∈ clean ratings movies ↔
  ∃ r m g, r ∈ ratings ∧ m ∈ movies ∧ r_movieId r = m_movieId m
           ∧ g ∈ str_split "|" (m_genres m) ∧ g ≠ no_genres_listed
           ∧ x = joined r m g.
Proof.
  unfold clean, drop_timestamp, explode, split_genres.
  rewrite list_elem_of_filter, elem_of_drop_duplicates, list_elem_of_fmap.
  split.
  - intros (Hg & y & -> & (z & Hy & Hz)%list_elem_of_bind).
    apply list_elem_of_fmap in Hy as (g & -> & Hg').
    apply list_elem_of_fmap in Hz as (w & -> & Hw).
    apply elem_of_merge in Hw as (r & m & Hr & Hm & Heq & ->).
    simpl in *. exists r, m, g. eauto 10.
  - intros (r & m & g & Hr & Hm & Heq & Hg & Hne & ->).
    split; [done|].
    eexists (Row _ _ _ (r_timestamp r) _ g). split; [done|].
    apply list_elem_of_bind.
    eexists (Row _ _ _ (r_timestamp r) _ (str_split "|" (m_genres m))).
    split.
    + simpl. apply list_elem_of_fmap. eauto.
    + apply list_elem_of_fmap. eexists. split; [|apply elem_of_merge; eauto 10].
      done.
Qed.

Lemma NoDup_clean ratings movies : NoDup (clean ratings movies).
Proof. apply NoDup_filter, NoDup_drop_duplicates. Qed.

(** ** Vocabulary *)

Lemma categories_perm {T} (df : list (row T string)) :
  categories df ≡ₚ drop_duplicates (genres <$> df).
Proof. apply merge_sort_Permutation. Qed.

Lemma elem_of_categories {T} (df : list (row T string)) g :
  g ∈ categories df ↔ ∃ x, x ∈ df ∧ genres x = g.
Proof.
  rewrite categories_perm, elem_of_drop_duplicates, list_elem_of_fmap.
  split; intros (x & ? & ?); eauto.
Qed.

Lemma NoDup_categories {T} (df : list (row T string)) :
  NoDup (categories df).
Proof. rewrite categories_perm. apply NoDup_drop_duplicates. Qed.

Lemma Sorted_categories {T} (df : list (row T string)) :
  Sorted String.le (categories df).
Proof. apply (Sorted_merge_sort _). Qed.

Lemma genre_cols_of_get_dummies df :
  genre_cols_of (get_dummies df) = (λ c, "genres_" +:+ c) <$> categories df.
Proof.
  unfold genre_cols_of, columns. rewrite filter_app. simpl dummy_columns.
  replace (filter _ ["userId"; "movieId"; "rating"; "title"])
    with (@nil string) by reflexivity.
  simpl. induction (categories df) as [|c cs IH]; [done|].
  rewrite fmap_cons, filter_cons, decide_True by (by destruct c).
  by rewrite IH.
Qed.

Lemma length_genre_cols df :
  length (genre_cols_of (get_dummies df)) = length (categories df).
Proof. by rewrite genre_cols_of_get_dummies, length_fmap. Qed.

Lemma length_one_hot cats g : length (one_hot cats g) = length cats.
Proof. apply length_fmap. Qed.

(** ** The encoded frame *)

Lemma filter_fmap {A B} (f : A → B) (P : B → Prop) `{∀ y, Decision (P y)}
    (l : list A) :
  filter P (f <$> l) = f <$> filter (λ x, P (f x)) l.
Proof.
  induction l as [|x l IH]; [done|].
  rewrite fmap_cons, !filter_cons. case_decide; by rewrite ?fmap_cons, IH.
Qed.

Lemma rows_get_dummies df :
  rows (get_dummies df) = encode (categories df) <$> df.
Proof. done. Qed.

Lemma user_rows_get_dummies df u :
  filter (λ r : row unit (list Z), userId r = u) (rows (get_dummies df))
  = encode (categories df)
      <$> filter (λ r : row unit string, userId r = u) df.
Proof. rewrite rows_get_dummies. by rewrite filter_fmap. Qed.

(** ** User profiles *)

Lemma lookup_list_to_map_fn {V} (f : Z → V) (l : list Z) (k : Z) :
  (list_to_map ((λ u, (u, f u)) <$> l) : gmap Z V) !! k
  = if decide (k ∈ l) then Some (f k) else None.
Proof.
  induction l as [|u l IH].
  - by rewrite fmap_nil, list_to_map_nil, lookup_empty.
  - rewrite fmap_cons, list_to_map_cons.
    destruct (decide (u = k)) as [->|Hne].
    + rewrite lookup_insert_eq, decide_True; [done|by left].
    + rewrite lookup_insert_ne, IH by done.
      destruct (decide (k ∈ l)).
      * rewrite decide_True; [done|by right].
      * rewrite decide_False; [done|]. intros [?|?]%elem_of_cons; congruence.
Qed.

Lemma lookup_build_user_profiles d u :
  build_user_profiles d !! u
  = if decide (u ∈ userId <$> rows d)
    then Some (get_user_profile (length (genre_cols_of d))
                 (filter (λ r : row unit (list Z), userId r = u) (rows d)))
    else None.
Proof.
  unfold build_user_profiles.
  apply (lookup_list_to_map_fn
           (λ v, get_user_profile (length (genre_cols_of d))
                   (filter (λ r : row unit (list Z), userId r = v) (rows d)))).
Qed.

Lemma length_column_sums n (m : list (list Qc)) :
  Forall (λ v, length v = n) m → length (column_sums n m) = n.
Proof.
  unfold column_sums. induction 1 as [|v m Hv _ IH]; simpl.
  - apply length_replicate.
  - rewrite length_zip_with, IH, Hv. lia.
Qed.

Lemma multiply_lengths cats (df : list (row unit string)) :
  Forall (λ v, length v = length cats) (multiply (encode cats <$> df)).
Proof.
  unfold multiply. rewrite Forall_fmap, Forall_fmap.
  apply Forall_forall. intros r _. simpl.
  by rewrite length_fmap, length_one_hot.
Qed.

Lemma length_get_user_profile cats (df : list (row unit string)) p :
  get_user_profile (length cats) (encode cats <$> df) = Some p →
  length p = length cats.
Proof.
  unfold get_user_profile. case_decide; [done|]. intros [= <-].
  rewrite length_fmap. apply length_column_sums, multiply_lengths.
Qed.

(** A user has an entry in [user_profiles] exactly when one of the cleaned
    rows is theirs. *)
Lemma lookup_user_profiles ratings movies u :
  user_profiles (build_model ratings movies) !! u
  = if decide (u ∈ userId <$> clean ratings movies)
    then Some (get_user_profile (length (categories (clean ratings movies)))
                 (encode (categories (clean ratings movies))
                    <$> filter (λ r : row unit string, userId r = u)
                               (clean ratings movies)))
    else None.
Proof.
  unfold build_model. simpl. rewrite lookup_build_user_profiles.
  rewrite length_genre_cols, user_rows_get_dummies, rows_get_dummies.
  rewrite <-list_fmap_compose.
  assert (userId ∘ encode (categories (clean ratings movies)) = userId)
    as -> by done.
  done.
Qed.

(** ** Movie features *)

Lemma mf_rows_build_model ratings movies :
  mf_rows (movie_features (build_model ratings movies))
  = to_feature
      <$> drop_duplicates_by movieId
            (encode (categories (clean ratings movies))
               <$> clean ratings movies).
Proof. done. Qed.

Lemma elem_of_mf_rows ratings movies f :
  f ∈ mf_rows (movie_features (build_model ratings movies)) →
  ∃ x, x ∈ clean ratings movies
       ∧ f = Feature (movieId x) (title x)
               (one_hot (categories (clean ratings movies)) (genres x)).
Proof.
  rewrite mf_rows_build_model.
  intros (y & -> & Hy%elem_of_drop_duplicates_by)%list_elem_of_fmap.
  apply list_elem_of_fmap in Hy as (x & -> & Hx). by exists x.
Qed.

Lemma movieId_in_mf_rows ratings movies x :
  x ∈ clean ratings movies →
  movieId x ∈ f_movieId <$> mf_rows (movie_features (build_model ratings movies)).
Proof.
  intros Hx. rewrite mf_rows_build_model, <-list_fmap_compose.
  assert (f_movieId ∘ to_feature = movieId) as -> by done.
  apply (drop_duplicates_by_keeps_key movieId
           _ (encode (categories (clean ratings movies)) x)).
  by apply list_elem_of_fmap_2.
Qed.

(** ** Validation never fails on a built model *)

Lemma profile_dims ratings movies u p :
  user_profiles (build_model ratings movies) !! u = Some (Some p) →
  length p = length (categories (clean ratings movies))
  ∧ (0 < length p)%nat
  ∧ mf_rows (movie_features (build_model ratings movies)) ≠ [].
Proof.
  rewrite lookup_user_profiles. case_decide as Hu; [|done].
  intros [= Hp]. apply length_get_user_profile in Hp.
  apply list_elem_of_fmap in Hu as (x & _ & Hx).
  split; [done|]. split.
  - rewrite Hp.
    assert (genres x ∈ categories (clean ratings movies)) as Hg
      by (apply elem_of_categories; eauto).
    destruct (categories _); [by apply elem_of_nil in Hg|simpl; lia].
  - apply movieId_in_mf_rows in Hx. intros Hnil. rewrite Hnil in Hx.
    by apply elem_of_nil in Hx.
Qed.

Lemma check_pairwise_arrays_built ratings movies u p :
  user_profiles (build_model ratings movies) !! u = Some (Some p) →
  check_pairwise_arrays [Qc2R <$> p]
    (movie_vectors_of (movie_features (build_model ratings movies))) = true.
Proof.
  intros Hp. destruct (profile_dims _ _ _ _ Hp) as (Hlen & Hpos & Hne).
  unfold check_pairwise_arrays. apply bool_decide_eq_true.
  unfold movie_vectors_of.
  destruct (mf_rows _) as [|f fs] eqn:Hrows; [done|].
  assert (f ∈ mf_rows (movie_features (build_model ratings movies))) as Hf
    by (rewrite Hrows; by left).
  apply elem_of_mf_rows in Hf as (x & _ & ->).
  simpl. rewrite !length_fmap, length_one_hot. done.
Qed.

(** ** What the queries compute *)

Lemma recommend_movies_valid e user_id top_n p :
  user_profiles e !! user_id = Some (Some p) →
  check_pairwise_arrays [Qc2R <$> p] (movie_vectors_of (movie_features e))
    = true →
  recommend_movies e user_id top_n
  = (inr (df_head top_n (sort_values snd (candidates e user_id p))),
     with_similarity e p).
Proof.
  intros Hp Hcheck. unfold recommend_movies. rewrite Hp. simpl.
  rewrite Hcheck. simpl. rewrite app_nil_r. done.
Qed.

Lemma recommend_movies_built ratings movies user_id top_n p :
  let e := build_model ratings movies in
  user_profiles e !! user_id = Some (Some p) →
  recommend_movies e user_id top_n
  = (inr (df_head top_n (sort_values snd (candidates e user_id p))),
     with_similarity e p).
Proof.
  intros e Hp. apply recommend_movies_valid; [done|].
  by eapply check_pairwise_arrays_built.
Qed.

Lemma elem_of_df_head {A} (n : Z) (l : list A) x : x ∈ df_head n l → x ∈ l.
Proof.
  unfold df_head. case_decide; intros (i & Hi & _)%elem_of_take;
    by eapply list_elem_of_lookup_2.
Qed.

Lemma insert_desc_perm {A} (key : A → R) x l :
  insert_desc key x l ≡ₚ x :: l.
Proof.
  induction l as [|y l IH]; simpl; [done|].
  case_decide; [|done]. rewrite IH. apply Permutation_swap.
Qed.

Lemma sort_values_perm {A} (key : A → R) (l : list A) :
  sort_values key l ≡ₚ l.
Proof.
  induction l as [|x l IH]; simpl; [done|].
  by rewrite insert_desc_perm, IH.
Qed.

(** ** Exclusion of rated movies *)

(** A raw rating of a catalog movie always has a cleaned row: whether a row
    survives cleaning depends on the movie's genre labels only. *)
Lemma raw_rating_in_already_rated ratings movies r f :
  let e := build_model ratings movies in
  r ∈ ratings →
  f ∈ mf_rows (movie_features e) →
  f_movieId f = r_movieId r →
  r_movieId r ∈ already_rated_of e (r_userId r).
Proof.
  intros e Hr Hf Hid.
  apply elem_of_mf_rows in Hf as (x & Hx & ->). simpl in Hid.
  apply elem_of_clean in Hx as (r' & m & g & _ & Hm & Heq & Hg & Hne & ->).
  simpl in Hid.
  assert (joined r m g ∈ clean ratings movies) as Hin.
  { apply elem_of_clean. exists r, m, g. repeat split; try done. congruence. }
  unfold already_rated_of, e, build_model. cbn [df_genres].
  rewrite user_rows_get_dummies.
  rewrite <-list_fmap_compose.
  apply list_elem_of_fmap. exists (joined r m g). split; [done|].
  apply list_elem_of_filter. done.
Qed.

Lemma elem_of_candidates e user_id p f s :
  (f, s) ∈ candidates e user_id p →
  f ∈ mf_rows (movie_features e) ∧ f_movieId f ∉ already_rated_of e user_id.
Proof.
  unfold candidates. intros [Hnot Hin]%list_elem_of_filter.
  split; [|done]. by apply elem_of_zip_l in Hin.
Qed.

(** A frame returned by [recommend_movies] is a prefix of the sorted
    candidates. *)
Lemma recommend_movies_inr e user_id top_n out e' :
  recommend_movies e user_id top_n = (inr out, e') →
  ∃ p, user_profiles e !! user_id = Some (Some p)
       ∧ out = df_head top_n (sort_values snd (candidates e user_id p))
       ∧ e' = with_similarity e p.
Proof.
  unfold recommend_movies.
  destruct (user_profiles e !! user_id) as [[p|]|] eqn:Hp; simpl; try done.
  destruct (check_pairwise_arrays _ _); simpl; [|done].
  rewrite app_nil_r. intros [= <- <-]. by exists p.
Qed.

(** C4: in a model built from any raw inputs, whatever frame
    [recommend_movies] returns for a user contains no movie id that occurs in
    one of that user's raw rating events (sentinel-genre movies and dropped
    duplicates included); and it does return a frame for every user whose
    profile is a vector of finite values. *)
Theorem recommend_excludes_raw_rated ratings movies user_id top_n :
  let e := build_model ratings movies in
  (∀ out e', recommend_movies e user_id top_n = (inr out, e') →
     ∀ r, r ∈ ratings → r_userId r = user_id →
          r_movieId r ∉ (λ fs : feature * R, f_movieId fs.1) <$> out)
  ∧ (∀ p, user_profiles e !! user_id = Some (Some p) →
       ∃ out e', recommend_movies e user_id top_n = (inr out, e')).
Proof.
  intros e. split.
  - intros out e' Hrec r Hr Hu Hin.
    apply recommend_movies_inr in Hrec as (p & _ & -> & _).
    apply list_elem_of_fmap in Hin as ([f s] & Hid & Hfs). simpl in Hid.
    apply elem_of_df_head in Hfs. rewrite sort_values_perm in Hfs.
    apply elem_of_candidates in Hfs as [Hf Hnot].
    apply Hnot. rewrite <-Hid, <-Hu.
    by apply (raw_rating_in_already_rated ratings movies r f).
  - intros p Hp. eexists _, _. by apply recommend_movies_built.
Qed.

Lemma recommend_excludes_raw_rated_witness :
  ∃ out e', recommend_movies (build_model ex_ratings ex_movies) 7 5
            = (inr out, e').
Proof.
  destruct (recommend_excludes_raw_rated ex_ratings ex_movies 7 5) as [_ H].
  assert (∃ p, user_profiles (build_model ex_ratings ex_movies) !! 7
               = Some (Some p)) as [p Hp] by pick_profile.
  exact (H p Hp).
Defined.

(** ** Ranking *)

Lemma insert_desc_sorted {A} (key : A → R) x l :
  StronglySorted (desc key) l → StronglySorted (desc key) (insert_desc key x l).
Proof.
  induction 1 as [|y l Hl IH Hy]; simpl.
  - by repeat constructor.
  - case_decide as Hlt.
    + constructor; [done|]. rewrite insert_desc_perm.
      constructor; [|done]. unfold desc. lra.
    + constructor; [by constructor|].
      assert (desc key x y) as Hxy by (unfold desc; lra).
      constructor; [done|].
      eapply Forall_impl; [exact Hy|]. unfold desc in *. intros z ?. lra.
Qed.

Lemma sort_values_sorted {A} (key : A → R) (l : list A) :
  StronglySorted (desc key) (sort_values key l).
Proof.
  induction l as [|x l IH]; simpl; [constructor|].
  by apply insert_desc_sorted.
Qed.

Lemma StronglySorted_take {A} (R : relation A) n l :
  StronglySorted R l → StronglySorted R (take n l).
Proof.
  intros Hl. revert n. induction Hl as [|a l Hl IH Ha]; intros [|n]; simpl;
    try constructor; [apply IH|by apply Forall_take].
Qed.

(** Rows with equal keys are left in frame order. *)
Lemma insert_desc_equal_keys {A} (key : A → R) x l :
  Forall (λ y, key y = key x) l → insert_desc key x l = x :: l.
Proof.
  destruct 1 as [|y l Hy _]; simpl; [done|].
  rewrite decide_False; [done|]. rewrite Hy. apply Rlt_irrefl.
Qed.

Lemma sort_values_equal_keys {A} (key : A → R) (l : list A) (k : R) :
  Forall (λ y, key y = k) l → sort_values key l = l.
Proof.
  induction 1 as [|x l Hx Hl IH]; simpl; [done|].
  rewrite IH. apply insert_desc_equal_keys.
  eapply Forall_impl; [exact Hl|]. simpl. congruence.
Qed.

Lemma already_rated_raw ratings movies user_id f :
  let e := build_model ratings movies in
  f ∈ mf_rows (movie_features e) →
  f_movieId f ∈ already_rated_of e user_id
  ↔ f_movieId f ∈ raw_rated ratings user_id.
Proof.
  intros e Hf. split.
  - unfold already_rated_of, e, build_model. cbn [df_genres].
    rewrite user_rows_get_dummies, <-list_fmap_compose.
    intros (x & Hid & [Hu Hx]%list_elem_of_filter)%list_elem_of_fmap.
    apply elem_of_clean in Hx as (r & m & g & Hr & _ & _ & _ & _ & ->).
    simpl in *. unfold raw_rated. rewrite Hid.
    apply list_elem_of_fmap. exists r. split; [done|].
    by apply list_elem_of_filter.
  - unfold raw_rated.
    intros (r & Hid & [Hu Hr]%list_elem_of_filter)%list_elem_of_fmap.
    rewrite Hid, <-Hu.
    by apply (raw_rating_in_already_rated ratings movies r f).
Qed.

Lemma zip_fmap_self {A B} (h : A → B) (l : list A) :
  zip l (h <$> l) = (λ x, (x, h x)) <$> l.
Proof. induction l as [|x l IH]; [done|]. csimpl. by f_equal. Qed.

Lemma filter_ext_elem_of {A} (P1 P2 : A → Prop)
    `{!∀ x, Decision (P1 x), !∀ x, Decision (P2 x)} (l : list A) :
  (∀ x, x ∈ l → P1 x ↔ P2 x) → filter P1 l = filter P2 l.
Proof.
  induction l as [|a l IH]; intros Hiff; [done|].
  rewrite !filter_cons, IH by (intros; apply Hiff; by right).
  assert (P1 a ↔ P2 a) as Ha by (apply Hiff; by left).
  destruct (decide (P1 a)), (decide (P2 a)); tauto || done.
Qed.

Lemma length_candidates ratings movies user_id p :
  let e := build_model ratings movies in
  length (candidates e user_id p)
  = length (filter (λ f, f_movieId f ∉ raw_rated ratings user_id)
                   (mf_rows (movie_features e))).
Proof.
  intros e. unfold candidates, scores_of, movie_vectors_of.
  rewrite <-list_fmap_compose.
  rewrite zip_fmap_self, filter_fmap, length_fmap.
  f_equal. apply filter_ext_elem_of. intros f Hf. cbn [fst].
  apply not_iff_compat, (already_rated_raw ratings movies user_id f Hf).
Qed.

Lemma length_df_head {A} (n : Z) (l : list A) :
  (0 ≤ n)%Z → length (df_head n l) = Nat.min (Z.to_nat n) (length l).
Proof. intros ?. unfold df_head. rewrite decide_True by done. apply length_take. Qed.

(** C3, as stated, fails: two unrated movies with the same score come out in
    catalog order, the larger movie id first. *)
Lemma recommend_ties_not_by_movie_id :
  ∃ a b e',
    recommend_movies (build_model tie_ratings tie_movies) 1 5
      = (inr [a; b], e')
    ∧ a.2 = b.2 ∧ f_movieId a.1 = 5 ∧ f_movieId b.1 = 3.
Proof.
  assert (∃ p, user_profiles (build_model tie_ratings tie_movies) !! 1
               = Some (Some p)) as [p Hp] by pick_profile.
  rewrite (recommend_movies_built _ _ _ _ _ Hp).
  set (s := similarity (Qc2R <$> p) [1%R]).
  assert (candidates (build_model tie_ratings tie_movies) 1 p
          = [(Feature 5 "Five" [1], s); (Feature 3 "Three" [1], s)]) as ->.
  { unfold candidates, scores_of, movie_vectors_of.
    replace (mf_rows (movie_features (build_model tie_ratings tie_movies)))
      with [Feature 9 "Nine" [1]; Feature 5 "Five" [1]; Feature 3 "Three" [1]]
      by (vm_compute; done).
    replace (already_rated_of (build_model tie_ratings tie_movies) 1)
      with [9] by (vm_compute; done).
    done. }
  rewrite (sort_values_equal_keys _ _ s) by (by repeat constructor).
  by eexists _, _, _.
Qed.

(** C3 (amended): for a user whose profile is a vector of finite values and
    [top_n ≥ 0], [recommend_movies] returns a frame sorted by similarity
    descending whose length is the minimum of [top_n] and the number of
    catalog movies that no raw rating event of the user mentions; fewer than
    [top_n] rows is not an error.  No order by movie id among equal scores is
    claimed. *)
Theorem recommend_sorted_length ratings movies user_id top_n p :
  let e := build_model ratings movies in
  user_profiles e !! user_id = Some (Some p) →
  (0 ≤ top_n)%Z →
  ∃ out e',
    recommend_movies e user_id top_n = (inr out, e')
    ∧ StronglySorted (desc snd) out
    ∧ length out
      = Nat.min (Z.to_nat top_n)
          (length (filter (λ f, f_movieId f ∉ raw_rated ratings user_id)
                          (mf_rows (movie_features e)))).
Proof.
  intros e Hp Hn. eexists _, _. split; [by apply recommend_movies_built|].
  split.
  - unfold df_head. rewrite decide_True by done.
    apply StronglySorted_take, sort_values_sorted.
  - rewrite length_df_head by done.
    rewrite (Permutation_length (sort_values_perm _ _)).
    by rewrite length_candidates.
Qed.

Lemma recommend_sorted_length_witness :
  ∃ out e',
    recommend_movies (build_model tie_ratings tie_movies) 1 5 = (inr out, e')
    ∧ StronglySorted (desc snd) out
    ∧ length out
      = Nat.min (Z.to_nat 5)
          (length (filter (λ f, f_movieId f ∉ raw_rated tie_ratings 1)
                          (mf_rows (movie_features
                                      (build_model tie_ratings tie_movies))))).
Proof.
  apply (recommend_sorted_length tie_ratings tie_movies 1 5
           [Q2Qc 1]); [vm_compute; f_equal; f_equal | lia].
  f_equal. by apply Qc_is_canon.
Defined.

(** ** The worked scenario *)

Lemma ex_profile_7 :
  ∃ p, user_profiles ex_env !! 7 = Some (Some p) ∧ this <$> p = [2 # 5; 3 # 5]%Q.
Proof. eexists. split; vm_compute; done. Qed.

(** ** Effects of a recommendation *)

(** The queries read [df_genres], [user_profiles] and the rows of
    [movie_features], never its [similarity] column. *)
Lemma predict_rating_ext e1 e2 user_id movie_id :
  user_profiles e1 = user_profiles e2 →
  mf_rows (movie_features e1) = mf_rows (movie_features e2) →
  predict_rating e1 user_id movie_id = predict_rating e2 user_id movie_id.
Proof. unfold predict_rating, loc. by intros -> ->. Qed.

Lemma recommend_movies_ext e1 e2 user_id top_n :
  df_genres e1 = df_genres e2 →
  user_profiles e1 = user_profiles e2 →
  mf_rows (movie_features e1) = mf_rows (movie_features e2) →
  (recommend_movies e1 user_id top_n).1 = (recommend_movies e2 user_id top_n).1.
Proof.
  unfold recommend_movies, movie_vectors_of. intros -> -> ->.
  destruct (user_profiles e2 !! user_id); [|done].
  by destruct (cosine_similarity _ _).
Qed.

(** C5, as stated, fails: after a recommendation the shared
    [movie_features] frame has a [similarity] column it did not have. *)
Lemma recommend_writes_similarity :
  movie_features (recommend_movies ex_env 7 1).2 ≠ movie_features ex_env.
Proof.
  destruct ex_profile_7 as (p & Hp & _).
  unfold ex_env in *. rewrite (recommend_movies_built _ _ _ _ _ Hp).
  intros Heq. apply (f_equal mf_similarity) in Heq. done.
Qed.

(** C5 (amended): [recommend_movies] leaves [df_genres], the vocabulary
    [genre_cols], every user profile and the catalog rows (id, title and
    genre vector of every movie) unchanged, and a call that raises changes
    nothing at all; a call that returns overwrites the [similarity] column of
    [movie_features] with the scores of the queried user, which no query reads
    back. *)
Theorem recommend_frame e user_id top_n :
  let res := recommend_movies e user_id top_n in
  df_genres res.2 = df_genres e
  ∧ genre_cols res.2 = genre_cols e
  ∧ user_profiles res.2 = user_profiles e
  ∧ mf_rows (movie_features res.2) = mf_rows (movie_features e)
  ∧ (∀ err, res.1 = inl err → res.2 = e)
  ∧ (∀ out, res.1 = inr out →
       ∃ p, user_profiles e !! user_id = Some (Some p)
            ∧ mf_similarity (movie_features res.2) = Some (scores_of e p))
  ∧ (∀ u m, predict_rating res.2 u m = predict_rating e u m)
  ∧ (∀ u n, (recommend_movies res.2 u n).1 = (recommend_movies e u n).1).
Proof.
  intros res.
  assert (df_genres res.2 = df_genres e
          ∧ genre_cols res.2 = genre_cols e
          ∧ user_profiles res.2 = user_profiles e
          ∧ mf_rows (movie_features res.2) = mf_rows (movie_features e))
    as (Hdf & Hcols & Hprof & Hrows).
  { unfold res, recommend_movies.
    destruct (user_profiles e !! user_id); [|done].
    by destruct (cosine_similarity _ _). }
  repeat split; try done.
  - unfold res, recommend_movies. intros err.
    destruct (user_profiles e !! user_id); [|done].
    by destruct (cosine_similarity _ _).
  - intros out Hout. destruct res as [r e'] eqn:Hres. simpl in *. subst r.
    apply recommend_movies_inr in Hres as (p & Hp & _ & ->). by exists p.
  - intros u m. by apply predict_rating_ext.
  - intros u n. by apply recommend_movies_ext.
Qed.

Lemma recommend_frame_witness :
  (recommend_movies ex_env 99 5).2 = ex_env
  ∧ ∃ p, mf_similarity (movie_features (recommend_movies ex_env 7 5).2)
         = Some (scores_of ex_env p).
Proof.
  split.
  - apply (recommend_frame ex_env 99 5) with (err := KeyError). done.
  - destruct ex_profile_7 as (p & Hp & _).
    destruct (recommend_frame ex_env 7 5) as (_ & _ & _ & _ & _ & H & _).
    destruct (H (df_head 5 (sort_values snd (candidates ex_env 7 p))))
      as (q & _ & Hq); [|by exists q].
    unfold ex_env in *. by rewrite (recommend_movies_built _ _ _ _ _ Hp).
Defined.

(** ** Failures *)

Lemma loc_None movie_id mf :
  loc movie_id mf = None ↔ movie_id ∉ f_movieId <$> mf_rows mf.
Proof.
  unfold loc. split.
  - intros Hnone (f & -> & Hf)%list_elem_of_fmap.
    assert (f ∈ filter (λ f' : feature, f_movieId f' = f_movieId f) (mf_rows mf))
      as Hin by (by apply list_elem_of_filter).
    destruct (filter _ _); [by apply elem_of_nil in Hin|done].
  - intros Hnot.
    destruct (filter _ _) as [|f l] eqn:Hfl; [done|]. exfalso. apply Hnot.
    assert (f ∈ filter (λ f' : feature, f_movieId f' = movie_id) (mf_rows mf))
      as [<- Hf]%list_elem_of_filter by (rewrite Hfl; by left).
    by apply list_elem_of_fmap_2.
Qed.

(** C8: when the user has no profile, [recommend_movies] and
    [predict_rating] raise [KeyError] (the not-found error of [.loc]) instead
    of returning a frame or a number, so an unknown user never shows as an
    empty list, and the globals are left as they were; [predict_rating] also
    raises [KeyError] when the movie id is not in the catalog index. *)
Theorem unknown_user_or_movie_raises e user_id movie_id top_n :
  (user_profiles e !! user_id = None →
     recommend_movies e user_id top_n = (inl KeyError, e)
     ∧ predict_rating e user_id movie_id = inl KeyError)
  ∧ (movie_id ∉ f_movieId <$> mf_rows (movie_features e) →
     predict_rating e user_id movie_id = inl KeyError).
Proof.
  split.
  - intros Hu. unfold recommend_movies, predict_rating. by rewrite Hu.
  - intros Hm%loc_None. unfold predict_rating. rewrite Hm.
    by destruct (user_profiles e !! user_id).
Qed.

Lemma unknown_user_or_movie_raises_witness :
  (recommend_movies ex_env 99 5 = (inl KeyError, ex_env)
   ∧ predict_rating ex_env 99 1 = inl KeyError)
  ∧ predict_rating ex_env 7 42 = inl KeyError.
Proof.
  split.
  - apply (unknown_user_or_movie_raises ex_env 99 1 5). by vm_compute.
  - apply (unknown_user_or_movie_raises ex_env 7 42 5).
    vm_compute. intros H.
    repeat (apply elem_of_cons in H as [H|H]; [discriminate H|]).
    by apply elem_of_nil in H.
Defined.

(** ** Cosine similarity *)

Section cosine.
Local Open Scope R_scope.

Lemma sum_squares_nonneg x : 0 <= sum_squares x.
Proof.
  unfold sum_squares. induction x as [|a x IH]; csimpl; [lra|].
  pose proof (Rle_0_sqr a) as Ha. unfold Rsqr in Ha. lra.
Qed.

Lemma row_norms_nonneg x : 0 <= row_norms x.
Proof. apply sqrt_pos. Qed.

Lemma row_norms_sqr x : row_norms x * row_norms x = sum_squares x.
Proof. apply sqrt_sqrt, sum_squares_nonneg. Qed.

Lemma row_norms_zero x : row_norms x = 0 ↔ sum_squares x = 0.
Proof.
  split.
  - intros H. rewrite <-row_norms_sqr, H. lra.
  - intros H. unfold row_norms. fold (sum_squares x). rewrite H.
    apply sqrt_0.
Qed.

Lemma dot_zero_l x y : sum_squares x = 0 → dot x y = 0.
Proof.
  unfold dot, sum_squares. revert y.
  induction x as [|a x IH]; intros [|b y]; csimpl; try done.
  intros H. pose proof (sum_squares_nonneg x) as Hx.
  unfold sum_squares in Hx.
  pose proof (Rle_0_sqr a) as Hsq. unfold Rsqr in Hsq.
  assert (a * a = 0 ∧ sum_R ((λ a, a * a) <$> x) = 0) as [Ha Hx'] by lra.
  rewrite (IH y Hx'). apply Rmult_integral in Ha as [->| ->]; lra.
Qed.

Lemma dot_comm x y : dot x y = dot y x.
Proof.
  unfold dot. revert y. induction x as [|a x IH]; intros [|b y]; csimpl;
    try done.
  rewrite IH. lra.
Qed.

Lemma dot_zero_r x y : sum_squares y = 0 → dot x y = 0.
Proof. rewrite dot_comm. apply dot_zero_l. Qed.

(** Cauchy-Schwarz, for rows of any two lengths (the product runs over
    the common prefix). *)
Lemma dot_sqr_le x y : dot x y * dot x y <= sum_squares x * sum_squares y.
Proof.
  revert y. induction x as [|a x IH]; intros [|b y].
  - unfold dot, sum_squares. csimpl. lra.
  - unfold dot. csimpl. pose proof (sum_squares_nonneg (b :: y)).
    unfold sum_squares at 1. csimpl. lra.
  - unfold dot. csimpl. pose proof (sum_squares_nonneg (a :: x)).
    unfold sum_squares at 2. csimpl. lra.
  - specialize (IH y).
    pose proof (sum_squares_nonneg x) as HA.
    pose proof (sum_squares_nonneg y) as HB.
    change (dot (a :: x) (b :: y)) with (a * b + dot x y).
    change (sum_squares (a :: x)) with (a * a + sum_squares x).
    change (sum_squares (b :: y)) with (b * b + sum_squares y).
    set (D := dot x y) in *. set (A := sum_squares x) in *.
    set (B := sum_squares y) in *.
    assert (2 * (a * b * D) <= a * a * B + b * b * A) as Hcross.
    { destruct (Req_dec A 0) as [HA0|HA0].
      - assert (D = 0) as -> by (rewrite HA0 in IH; nra).
        rewrite HA0. nra.
      - assert (0 < A) as HApos by lra.
        apply (Rmult_le_reg_l A); [done|].
        pose proof (Rle_0_sqr (a * D - b * A)) as Hsq. unfold Rsqr in Hsq.
        assert (a * a * (D * D) <= a * a * (A * B)) as Hm
          by (apply Rmult_le_compat_l; nra).
        nra. }
    nra.
Qed.

Lemma handle_zeros_in_scale_pos s : 0 <= s → 0 < handle_zeros_in_scale s.
Proof. unfold handle_zeros_in_scale. intros ?. case_decide; lra. Qed.

Lemma dot_scale x y c d :
  c ≠ 0 → d ≠ 0 →
  dot ((λ a, a / c) <$> x) ((λ b, b / d) <$> y) = dot x y / (c * d).
Proof.
  intros Hc Hd. unfold dot. revert y.
  induction x as [|a x IH]; intros [|b y]; csimpl;
    try (field; done).
  rewrite IH. field. done.
Qed.

Lemma similarity_scaled x y :
  similarity x y
  = dot x y / (handle_zeros_in_scale (row_norms x)
               * handle_zeros_in_scale (row_norms y)).
Proof.
  unfold similarity, normalize. apply dot_scale.
  - pose proof (handle_zeros_in_scale_pos _ (row_norms_nonneg x)). lra.
  - pose proof (handle_zeros_in_scale_pos _ (row_norms_nonneg y)). lra.
Qed.

(** Away from zero norms this is the textbook formula. *)
Lemma similarity_formula x y :
  row_norms x ≠ 0 → row_norms y ≠ 0 →
  similarity x y = dot x y / (row_norms x * row_norms y).
Proof.
  intros Hx Hy. rewrite similarity_scaled. unfold handle_zeros_in_scale.
  by rewrite !decide_False.
Qed.

Lemma similarity_zero_norm x y :
  row_norms x = 0 ∨ row_norms y = 0 → similarity x y = 0.
Proof.
  intros H. rewrite similarity_scaled.
  assert (dot x y = 0) as ->.
  { destruct H as [H%row_norms_zero|H%row_norms_zero];
      [by apply dot_zero_l|by apply dot_zero_r]. }
  unfold Rdiv. apply Rmult_0_l.
Qed.

Lemma similarity_range x y : -1 <= similarity x y <= 1.
Proof.
  destruct (Req_dec (row_norms x) 0) as [Hx|Hx].
  { rewrite similarity_zero_norm by auto. lra. }
  destruct (Req_dec (row_norms y) 0) as [Hy|Hy].
  { rewrite similarity_zero_norm by auto. lra. }
  rewrite similarity_formula by done.
  pose proof (row_norms_nonneg x) as Hx0.
  pose proof (row_norms_nonneg y) as Hy0.
  pose proof (dot_sqr_le x y) as Hcs.
  rewrite <-!row_norms_sqr in Hcs.
  set (c := row_norms x) in *. set (d := row_norms y) in *.
  set (D := dot x y) in *.
  assert (0 < c * d) as Hcd by nra.
  assert (- (c * d) <= D <= c * d) as [Hlo Hhi] by nra.
  split.
  - apply (Rmult_le_reg_r (c * d)); [done|].
    unfold Rdiv. rewrite Rmult_assoc, Rinv_l by lra. lra.
  - apply (Rmult_le_reg_r (c * d)); [done|].
    unfold Rdiv. rewrite Rmult_assoc, Rinv_l by lra. lra.
Qed.
End cosine.

(** C9: the similarity of two rows is always defined, lies in [-1, 1], and is
    0 as soon as one of the rows has zero norm: the divisor is the norm with
    zeros replaced by 1, so it is never 0; away from zero norms the value is
    the cosine formula.  For two rows of the same positive dimension the
    validation passes and [cosine_similarity] returns that value. *)
Theorem similarity_total_bounded (x y : list R) :
  (-1 <= similarity x y <= 1)%R
  ∧ (row_norms x = 0%R ∨ row_norms y = 0%R → similarity x y = 0%R)
  ∧ handle_zeros_in_scale (row_norms x) ≠ 0%R
  ∧ handle_zeros_in_scale (row_norms y) ≠ 0%R
  ∧ similarity x y
    = (dot x y / (handle_zeros_in_scale (row_norms x)
                  * handle_zeros_in_scale (row_norms y)))%R
  ∧ (row_norms x ≠ 0%R → row_norms y ≠ 0%R →
     similarity x y = (dot x y / (row_norms x * row_norms y))%R)
  ∧ ((0 < length x)%nat → length x = length y →
     cosine_similarity (Some [x]) [y] = inr [[similarity x y]]).
Proof.
  split; [apply similarity_range|].
  split; [apply similarity_zero_norm|].
  split.
  { pose proof (handle_zeros_in_scale_pos _ (row_norms_nonneg x)). lra. }
  split.
  { pose proof (handle_zeros_in_scale_pos _ (row_norms_nonneg y)). lra. }
  split; [apply similarity_scaled|].
  split; [apply similarity_formula|].
  intros Hpos Hlen. unfold cosine_similarity, check_pairwise_arrays.
  rewrite bool_decide_eq_true_2; [done|]. simpl. done.
Qed.

Lemma similarity_total_bounded_witness :
  similarity [1%R; 0%R] [0%R; 0%R] = 0%R
  ∧ cosine_similarity (Some [[1%R; 0%R]]) [[0%R; 0%R]]
    = inr [[similarity [1%R; 0%R] [0%R; 0%R]]].
Proof.
  destruct (similarity_total_bounded [1%R; 0%R] [0%R; 0%R])
    as (_ & Hzero & _ & _ & _ & _ & Hval).
  split.
  - apply Hzero. right. apply row_norms_zero.
    unfold sum_squares. simpl. lra.
  - apply Hval; simpl; lia.
Defined.

(** ** Profiles are normalised *)

Section profile_sum.
Local Open Scope Qc_scope.

Lemma sum_Qc_fmap_div (t : Qc) (l : list Qc) :
  sum_Qc ((λ x, x / t) <$> l) = sum_Qc l / t.
Proof.
  unfold sum_Qc. induction l as [|a l IH]; csimpl.
  - unfold Qcdiv. ring.
  - rewrite IH. unfold Qcdiv. ring.
Qed.

Lemma sum_Qc_zip_with (a b : list Qc) :
  length a = length b →
  sum_Qc (zip_with Qcplus a b) = sum_Qc a + sum_Qc b.
Proof.
  unfold sum_Qc. revert b. induction a as [|x a IH]; intros [|y b] Hlen;
    csimpl in *; try done.
  rewrite IH by lia. ring.
Qed.

Lemma sum_Qc_replicate_0 n : sum_Qc (replicate n (Q2Qc 0)) = 0.
Proof.
  unfold sum_Qc. induction n as [|n IH]; csimpl; [done|]. rewrite IH. ring.
Qed.

(** Summing the column sums is summing the row sums. *)
Lemma sum_Qc_column_sums n (m : list (list Qc)) :
  Forall (λ v, length v = n) m →
  sum_Qc (column_sums n m) = sum_Qc (sum_Qc <$> m).
Proof.
  induction 1 as [|v m Hv Hm IH].
  - apply sum_Qc_replicate_0.
  - unfold column_sums in *. csimpl.
    rewrite sum_Qc_zip_with.
    + rewrite IH. done.
    + rewrite Hv. symmetry. by apply length_column_sums.
Qed.

(** A dummy block holds one 1, in the column of the row's label. *)
Lemma sum_Qc_one_hot_absent cats g (q : Qc) :
  g ∉ cats → sum_Qc ((λ d, Qc_of_Z d * q) <$> one_hot cats g) = 0.
Proof.
  unfold sum_Qc, one_hot. induction cats as [|c cats IH]; intros Hg; csimpl.
  - done.
  - rewrite decide_False by (intros ->; apply Hg; by left).
    rewrite IH by (intros ?; apply Hg; by right).
    rewrite Z2Qc_inj_0. ring.
Qed.

Lemma sum_Qc_one_hot cats g (q : Qc) :
  NoDup cats → g ∈ cats →
  sum_Qc ((λ d, Qc_of_Z d * q) <$> one_hot cats g) = q.
Proof.
  induction 1 as [|c cats Hc Hnd IH]; intros Hg.
  - by apply elem_of_nil in Hg.
  - unfold one_hot. rewrite fmap_cons, fmap_cons.
    change (sum_Qc (?a :: ?l)) with (a + sum_Qc l).
    destruct (decide (c = g)) as [->|Hne].
    + fold (one_hot cats g). rewrite sum_Qc_one_hot_absent by done.
      rewrite Z2Qc_inj_1. ring.
    + fold (one_hot cats g). rewrite IH.
      * rewrite Z2Qc_inj_0. ring.
      * apply elem_of_cons in Hg as [?|?]; [congruence|done].
Qed.

Lemma row_sums_multiply cats (df : list (row unit string)) :
  NoDup cats →
  Forall (λ r, genres r ∈ cats) df →
  sum_Qc <$> multiply (encode cats <$> df) = rating <$> df.
Proof.
  intros Hnd. unfold multiply. induction 1 as [|r df Hr _ IH]; [done|].
  rewrite !fmap_cons, IH. f_equal. simpl. by apply sum_Qc_one_hot.
Qed.

Lemma sum_Qc_get_user_profile cats (df : list (row unit string)) p :
  NoDup cats →
  Forall (λ r, genres r ∈ cats) df →
  get_user_profile (length cats) (encode cats <$> df) = Some p →
  sum_Qc p = 1.
Proof.
  intros Hnd Hdf. unfold get_user_profile.
  case_decide as Ht; [done|]. intros [= <-].
  rewrite sum_Qc_fmap_div, sum_Qc_column_sums by apply multiply_lengths.
  rewrite row_sums_multiply by done.
  rewrite <-list_fmap_compose in *.
  assert (rating ∘ encode cats = rating) as Hr by done.
  rewrite Hr in Ht. unfold Qcdiv. by apply Qcmult_inv_r.
Qed.
End profile_sum.

(** ** Rating prediction *)

Lemma Qc2R_plus (a b : Qc) : Qc2R (a + b)%Qc = (Qc2R a + Qc2R b)%R.
Proof.
  unfold Qc2R. rewrite <-Q2R_plus. apply Qeq_eqR. simpl. apply Qred_correct.
Qed.

Lemma Qc2R_0 : Qc2R (Q2Qc 0) = 0%R.
Proof. unfold Qc2R, Q2R. simpl. lra. Qed.

Lemma Qc2R_1 : Qc2R (Q2Qc 1) = 1%R.
Proof. unfold Qc2R, Q2R. simpl. lra. Qed.

Lemma sum_R_Qc2R (l : list Qc) : sum_R (Qc2R <$> l) = Qc2R (sum_Qc l).
Proof.
  unfold sum_R, sum_Qc. induction l as [|a l IH]; csimpl.
  - by rewrite Qc2R_0.
  - by rewrite Qc2R_plus, IH.
Qed.

Lemma loc_Some movie_id mf f :
  loc movie_id mf = Some f → f ∈ mf_rows mf ∧ f_movieId f = movie_id.
Proof.
  unfold loc. destruct (filter _ _) as [|f' l] eqn:Hfl; [done|].
  intros [= ->].
  assert (f ∈ filter (λ f' : feature, f_movieId f' = movie_id) (mf_rows mf))
    as [? ?]%list_elem_of_filter by (rewrite Hfl; by left).
  done.
Qed.

(** On a built model the prediction is the similarity times the sum of the
    profile's components. *)
Lemma predict_rating_built ratings movies user_id movie_id p f :
  let e := build_model ratings movies in
  user_profiles e !! user_id = Some (Some p) →
  loc movie_id (movie_features e) = Some f →
  predict_rating e user_id movie_id
  = inr (similarity (Qc2R <$> p) (IZR <$> f_genres f)
         * sum_R (Qc2R <$> p))%R.
Proof.
  intros e Hp Hf. unfold predict_rating. rewrite Hp, Hf. simpl.
  destruct (profile_dims _ _ _ _ Hp) as (Hlen & Hpos & _).
  apply loc_Some in Hf as [(x & _ & ->)%elem_of_mf_rows _].
  unfold check_pairwise_arrays. rewrite bool_decide_eq_true_2.
  - simpl. by rewrite app_nil_r.
  - simpl. rewrite !length_fmap, length_one_hot. done.
Qed.

Lemma clean_genres_in_categories ratings movies (P : row unit string → Prop)
    `{∀ x, Decision (P x)} :
  Forall (λ r, genres r ∈ categories (clean ratings movies))
         (filter P (clean ratings movies)).
Proof.
  apply Forall_forall. intros r [_ Hr]%list_elem_of_filter.
  apply elem_of_categories. eauto.
Qed.

(** A finite profile of a built model sums to 1. *)
Lemma sum_Qc_profile ratings movies user_id p :
  user_profiles (build_model ratings movies) !! user_id = Some (Some p) →
  sum_Qc p = Q2Qc 1.
Proof.
  rewrite lookup_user_profiles. case_decide; [|done]. intros [= Hp].
  eapply sum_Qc_get_user_profile; [| |exact Hp].
  - apply NoDup_categories.
  - apply clean_genres_in_categories.
Qed.

Lemma sum_Qc_pos (l : list Qc) :
  l ≠ [] → Forall (λ q, (0 < q)%Qc) l → (0 < sum_Qc l)%Qc.
Proof.
  intros Hne Hl. unfold sum_Qc. induction Hl as [|a l Ha Hl IH]; [done|].
  simpl. destruct l as [|b l].
  - simpl. by rewrite Qcplus_0_r.
  - apply Qcplus_pos_pos; [done|]. by apply IH.
Qed.

(** With positive ratings the rating mass is not zero, so the profile is a
    vector of finite values. *)
Lemma profile_finite ratings movies user_id :
  (∀ r, r ∈ ratings → r_userId r = user_id → (0 < r_rating r)%Qc) →
  is_Some (user_profiles (build_model ratings movies) !! user_id) →
  ∃ p, user_profiles (build_model ratings movies) !! user_id = Some (Some p).
Proof.
  intros Hpos. rewrite lookup_user_profiles.
  case_decide as Hu; [|by intros [? ?]]. intros _.
  unfold get_user_profile. case_decide as Ht; [|by eexists].
  exfalso. rewrite <-list_fmap_compose in Ht.
  assert (rating ∘ encode (categories (clean ratings movies)) = rating)
    as Hr by done.
  rewrite Hr in Ht. clear Hr.
  apply list_elem_of_fmap in Hu as (x & Hux & Hx).
  eapply Qclt_not_eq; [|symmetry; exact Ht].
  apply sum_Qc_pos.
  - intros Hnil.
    assert (x ∈ filter (λ r : row unit string, userId r = user_id)
                        (clean ratings movies)) as Hin
      by (by apply list_elem_of_filter).
    apply (list_elem_of_fmap_2 rating) in Hin. rewrite Hnil in Hin.
    by apply elem_of_nil in Hin.
  - apply Forall_fmap, Forall_forall.
    intros y [Huy Hy]%list_elem_of_filter.
    apply elem_of_clean in Hy as (r & m & g & Hr & _ & _ & _ & _ & ->).
    simpl in *. by apply Hpos.
Qed.

(** C10: in a model built from any raw inputs, a user who has a profile and
    whose ratings are positive has a profile whose components sum to exactly
    1 (the denominator is the sum of the per-row ratings, and each row puts
    its rating in exactly one genre column); so the multiplier in
    [predict_rating] is 1 and the predicted rating is the similarity. *)
Theorem profile_sums_to_one ratings movies user_id :
  let e := build_model ratings movies in
  is_Some (user_profiles e !! user_id) →
  (∀ r, r ∈ ratings → r_userId r = user_id → (0 < r_rating r)%Qc) →
  ∃ p, user_profiles e !! user_id = Some (Some p)
       ∧ sum_Qc p = Q2Qc 1
       ∧ sum_R (Qc2R <$> p) = 1%R
       ∧ ∀ movie_id f,
           loc movie_id (movie_features e) = Some f →
           predict_rating e user_id movie_id
           = inr (similarity (Qc2R <$> p) (IZR <$> f_genres f)).
Proof.
  intros e Hsome Hpos. subst e.
  destruct (profile_finite ratings movies user_id Hpos Hsome) as [p Hp].
  exists p. split; [done|].
  pose proof (sum_Qc_profile _ _ _ _ Hp) as Hsum.
  assert (sum_R (Qc2R <$> p) = 1%R) as HsumR
    by (by rewrite sum_R_Qc2R, Hsum, Qc2R_1).
  repeat split; try done.
  intros movie_id f Hf.
  rewrite (predict_rating_built _ _ _ _ _ _ Hp Hf), HsumR.
  f_equal. lra.
Qed.

Lemma profile_sums_to_one_witness :
  ∃ p, user_profiles ex_env !! 7 = Some (Some p)
       ∧ sum_Qc p = Q2Qc 1
       ∧ sum_R (Qc2R <$> p) = 1%R
       ∧ ∀ movie_id f,
           loc movie_id (movie_features ex_env) = Some f →
           predict_rating ex_env 7 movie_id
           = inr (similarity (Qc2R <$> p) (IZR <$> f_genres f)).
Proof.
  apply (profile_sums_to_one ex_ratings ex_movies 7).
  - vm_compute. eauto.
  - intros r Hr _. unfold ex_ratings in Hr.
    repeat (apply elem_of_cons in Hr as [->|Hr]; [by vm_compute|]).
    by apply elem_of_nil in Hr.
Defined.

Section norms.
Local Open Scope R_scope.

Lemma sqr_le_sum_squares a x : a ∈ x → a * a <= sum_squares x.
Proof.
  unfold sum_squares. induction 1 as [a x|a b x _ IH]; csimpl.
  - pose proof (sum_squares_nonneg x) as Hx. unfold sum_squares in Hx. lra.
  - pose proof (Rle_0_sqr b) as Hb. unfold Rsqr in Hb. lra.
Qed.

Lemma sum_R_zero x : sum_squares x = 0 → sum_R x = 0.
Proof.
  unfold sum_squares, sum_R. induction x as [|a x IH]; csimpl; [done|].
  intros H. pose proof (sum_squares_nonneg x) as Hx.
  unfold sum_squares, sum_R in Hx.
  pose proof (Rle_0_sqr a) as Hsq. unfold Rsqr in Hsq.
  assert (a * a = 0 ∧ foldr Rplus 0 ((λ a, a * a) <$> x) = 0) as [Ha Hx']
    by lra.
  rewrite (IH Hx'). apply Rmult_integral in Ha as [->| ->]; lra.
Qed.

(** A catalog vector has a 1 in the column of its label. *)
Lemma row_norms_one_hot cats g :
  g ∈ cats → row_norms (IZR <$> one_hot cats g) ≠ 0.
Proof.
  intros Hg Hz%row_norms_zero.
  assert (1 ∈ IZR <$> one_hot cats g) as H1.
  { unfold one_hot. rewrite <-list_fmap_compose.
    apply list_elem_of_fmap. exists g. split; [|done].
    simpl. by rewrite decide_True. }
  apply sqr_le_sum_squares in H1. lra.
Qed.

Lemma row_norms_profile ratings movies user_id p :
  user_profiles (build_model ratings movies) !! user_id = Some (Some p) →
  row_norms (Qc2R <$> p) ≠ 0.
Proof.
  intros Hp%sum_Qc_profile Hz%row_norms_zero%sum_R_zero.
  rewrite sum_R_Qc2R, Hp, Qc2R_1 in Hz. lra.
Qed.
End norms.

Lemma similarity_unit : similarity [1%R] [1%R] = 1%R.
Proof.
  assert (row_norms [1%R] = 1%R) as Hn.
  { unfold row_norms. csimpl. unfold sum_R. simpl.
    replace (1 * 1 + 0)%R with 1%R by lra. apply sqrt_1. }
  rewrite similarity_formula by (rewrite Hn; lra).
  rewrite Hn. unfold dot, sum_R. simpl. lra.
Qed.

(** ** The prediction on any globals *)

(** With a unique index, [loc] at a row's id is that row. *)
Lemma loc_unique_row mf f :
  NoDup (f_movieId <$> mf_rows mf) → f ∈ mf_rows mf →
  loc (f_movieId f) mf = Some f.
Proof.
  unfold loc. intros Hnd Hf.
  induction (mf_rows mf) as [|f' l IH]; [by apply elem_of_nil in Hf|].
  rewrite fmap_cons in Hnd. apply NoDup_cons in Hnd as [Hnot Hnd].
  rewrite filter_cons. apply elem_of_cons in Hf as [->|Hf].
  - by rewrite decide_True.
  - rewrite decide_False; [by apply IH|].
    intros Heq. apply Hnot. rewrite Heq. by apply list_elem_of_fmap_2.
Qed.

(** The index of a built catalog is unique. *)
Lemma NoDup_catalog_ids ratings movies :
  NoDup (f_movieId <$> mf_rows (movie_features (build_model ratings movies))).
Proof.
  rewrite mf_rows_build_model, <-list_fmap_compose.
  apply (NoDup_drop_duplicates_from movieId).
Qed.

(** Whatever the globals hold, a finite stored vector and a movie row of the
    same, non-zero, dimension pass the validation, and the prediction is the
    similarity times the sum of the stored vector. *)
Lemma predict_rating_valid e user_id movie_id p f :
  user_profiles e !! user_id = Some (Some p) →
  loc movie_id (movie_features e) = Some f →
  (0 < length p)%nat →
  length (f_genres f) = length p →
  predict_rating e user_id movie_id
  = inr (similarity (Qc2R <$> p) (IZR <$> f_genres f)
         * sum_R (Qc2R <$> p))%R.
Proof.
  intros Hp Hf Hpos Hlen. unfold predict_rating. rewrite Hp, Hf. simpl.
  unfold check_pairwise_arrays. rewrite bool_decide_eq_true_2.
  - simpl. by rewrite app_nil_r.
  - simpl. rewrite !length_fmap. done.
Qed.

(** C7: [predict_rating] returns the cosine similarity of the user's profile
    vector and the movie's vector multiplied by the sum of the profile
    vector's components, and nothing else is done to the product.

    - On any globals (the movie index unique, the user's stored vector
      finite and of the dimension of the movie's vector): the call with the
      id of catalog row [f] reads that row and returns [sim * S], where [S]
      is the sum of the stored vector and [sim] the similarity, which is the
      quotient of the dot product by the product of the norms when neither
      norm is zero and 0 otherwise.
    - On a model built from any raw inputs these conditions hold for every
      user with a finite profile and every catalog row, and neither norm is
      zero.
    - On the hand-set globals [scaled_env], where [S = 4], the prediction is
      four times the similarity and differs from it.
    - The product is not clipped: on the two-movie instance whose ratings
      are all 1/2 the prediction is larger than every observed rating. *)
Theorem predict_rating_is_sim_times_sum :
  (∀ e user_id p f,
     user_profiles e !! user_id = Some (Some p) →
     NoDup (f_movieId <$> mf_rows (movie_features e)) →
     f ∈ mf_rows (movie_features e) →
     (0 < length p)%nat →
     length (f_genres f) = length p →
     let u := Qc2R <$> p in
     let v := IZR <$> f_genres f in
     loc (f_movieId f) (movie_features e) = Some f
     ∧ predict_rating e user_id (f_movieId f)
       = inr (similarity u v * sum_R u)%R
     ∧ (row_norms u ≠ 0%R → row_norms v ≠ 0%R →
        similarity u v = (dot u v / (row_norms u * row_norms v))%R)
     ∧ (row_norms u = 0%R ∨ row_norms v = 0%R → similarity u v = 0%R))
  ∧ (∀ ratings movies user_id p f,
       let e := build_model ratings movies in
       user_profiles e !! user_id = Some (Some p) →
       f ∈ mf_rows (movie_features e) →
       let u := Qc2R <$> p in
       let v := IZR <$> f_genres f in
       loc (f_movieId f) (movie_features e) = Some f
       ∧ predict_rating e user_id (f_movieId f)
         = inr (similarity u v * sum_R u)%R
       ∧ similarity u v = (dot u v / (row_norms u * row_norms v))%R)
  ∧ (∀ ratings movies user_id movie_id p f,
       let e := build_model ratings movies in
       user_profiles e !! user_id = Some (Some p) →
       loc movie_id (movie_features e) = Some f →
       let u := Qc2R <$> p in
       let v := IZR <$> f_genres f in
       f ∈ mf_rows (movie_features e) ∧ f_movieId f = movie_id
       ∧ predict_rating e user_id movie_id = inr (similarity u v * sum_R u)%R
       ∧ similarity u v = (dot u v / (row_norms u * row_norms v))%R)
  ∧ (∃ x, predict_rating scaled_env 1 10 = inr x
          ∧ x = (similarity [3; 1] [1; 0] * 4)%R
          ∧ x ≠ similarity [3; 1]%R [1; 0]%R)
  ∧ (∃ x, predict_rating (build_model half_ratings half_movies) 1 20 = inr x
          ∧ ∀ r, r ∈ half_ratings → (Qc2R (r_rating r) < x)%R).
Proof.
  assert (∀ ratings movies user_id p f,
            user_profiles (build_model ratings movies) !! user_id
            = Some (Some p) →
            f ∈ mf_rows (movie_features (build_model ratings movies)) →
            similarity (Qc2R <$> p) (IZR <$> f_genres f)
            = (dot (Qc2R <$> p) (IZR <$> f_genres f)
               / (row_norms (Qc2R <$> p)
                  * row_norms (IZR <$> f_genres f)))%R) as Hformula.
  { intros ratings movies user_id p f Hp Hf. apply similarity_formula.
    - by eapply row_norms_profile.
    - apply elem_of_mf_rows in Hf as (x & Hx & ->).
      apply row_norms_one_hot, elem_of_categories. eauto. }
  split; [|split; [|split; [|split]]].
  - intros e user_id p f Hp Hnd Hf Hpos Hlen u v.
    pose proof (loc_unique_row _ _ Hnd Hf) as Hloc.
    split; [done|]. split; [by apply predict_rating_valid|]. split.
    + apply similarity_formula.
    + apply similarity_zero_norm.
  - intros ratings movies user_id p f e Hp Hf u v.
    pose proof (loc_unique_row _ _ (NoDup_catalog_ids ratings movies) Hf)
      as Hloc.
    split; [done|]. split; [by apply predict_rating_built|].
    by eapply Hformula.
  - intros ratings movies user_id movie_id p f e Hp Hf u v.
    pose proof (loc_Some _ _ _ Hf) as [Hin Hid].
    split; [done|]. split; [done|]. split; [by apply predict_rating_built|].
    by eapply Hformula.
  - assert (Qc2R <$> [Q2Qc 3; Q2Qc 1] = [3; 1]%R) as Hu.
    { csimpl. f_equal; [|f_equal]; unfold Qc2R, Q2R; simpl; lra. }
    assert (row_norms [3; 1]%R ≠ 0%R) as Hn1.
    { intros Hz%row_norms_zero. unfold sum_squares, sum_R in Hz.
      simpl in Hz. lra. }
    assert (row_norms [1; 0]%R ≠ 0%R) as Hn2.
    { intros Hz%row_norms_zero. unfold sum_squares, sum_R in Hz.
      simpl in Hz. lra. }
    assert (0 < similarity [3; 1] [1; 0])%R as Hpos.
    { rewrite similarity_formula by done.
      pose proof (row_norms_nonneg [3; 1]%R).
      pose proof (row_norms_nonneg [1; 0]%R).
      apply Rdiv_lt_0_compat.
      - unfold dot, sum_R. simpl. lra.
      - apply Rmult_lt_0_compat; lra. }
    exists (similarity [3; 1] [1; 0] * 4)%R. split; [|split; [done|lra]].
    rewrite (predict_rating_valid scaled_env 1 10 [Q2Qc 3; Q2Qc 1]
               (Feature 10 "Ten" [1; 0])); [| |done|simpl; lia|done].
    + rewrite Hu. do 2 f_equal. unfold sum_R. simpl. lra.
    + by vm_compute.
  - assert (∃ p, user_profiles (build_model half_ratings half_movies) !! 1
                 = Some (Some p) ∧ this <$> p = [1%Q]) as (p & Hp & Hthis)
      by (eexists; split; vm_compute; done).
    assert (loc 20 (movie_features (build_model half_ratings half_movies))
            = Some (Feature 20 "Twenty" [1])) as Hf by (vm_compute; done).
    rewrite (predict_rating_built _ _ _ _ _ _ Hp Hf).
    eexists. split; [done|].
    assert (Qc2R <$> p = [1%R]) as ->.
    { change (Qc2R <$> p) with ((Q2R ∘ this) <$> p).
      rewrite list_fmap_compose, Hthis. csimpl. f_equal.
      unfold Q2R. simpl. lra. }
    csimpl. rewrite similarity_unit. unfold sum_R. simpl.
    intros r Hr. unfold half_ratings in Hr.
    repeat (apply elem_of_cons in Hr as [->|Hr];
            [unfold Qc2R, Q2R; simpl; lra|]).
    by apply elem_of_nil in Hr.
Qed.

Lemma predict_rating_is_sim_times_sum_witness :
  predict_rating scaled_env 1 20
  = inr (similarity (Qc2R <$> [Q2Qc 3; Q2Qc 1]) (IZR <$> [0; 1]%Z)
         * sum_R (Qc2R <$> [Q2Qc 3; Q2Qc 1]))%R.
Proof.
  destruct predict_rating_is_sim_times_sum as [H _].
  apply (H scaled_env 1 [Q2Qc 3; Q2Qc 1] (Feature 20 "Twenty" [0; 1])).
  - reflexivity.
  - apply (bool_decide_unpack _). by vm_compute.
  - apply list_elem_of_In. simpl. right. left. reflexivity.
  - simpl. lia.
  - reflexivity.
Defined.

(** ** The profile formula *)

Section profile_formula.
Local Open Scope Qc_scope.

Lemma zip_with_fmap_same {A B C D} (f : B → C → D) (h1 : A → B) (h2 : A → C)
    (l : list A) :
  zip_with f (h1 <$> l) (h2 <$> l) = (λ x, f (h1 x) (h2 x)) <$> l.
Proof. induction l as [|x l IH]; [done|]. csimpl. by f_equal. Qed.

Lemma column_sums_multiply cats (df : list (row unit string)) :
  column_sums (length cats) (multiply (encode cats <$> df))
  = (λ g, genre_mass g df) <$> cats.
Proof.
  unfold column_sums, multiply. induction df as [|r df IH].
  - csimpl. unfold genre_mass. csimpl.
    induction cats as [|c cats IHc]; [done|]. csimpl. by f_equal.
  - rewrite !fmap_cons. cbn [foldr]. rewrite IH. simpl genres.
    unfold one_hot. rewrite <-list_fmap_compose, zip_with_fmap_same.
    apply list_fmap_ext. intros _ c _. simpl.
    unfold genre_mass. rewrite filter_cons.
    destruct (decide (c = genres r)) as [->|Hne].
    + rewrite decide_True by done. csimpl. rewrite Z2Qc_inj_1.
      change (sum_Qc (?a :: ?l)) with (a + sum_Qc l). ring.
    + rewrite decide_False by congruence. rewrite Z2Qc_inj_0. ring.
Qed.

Lemma get_user_profile_formula cats (df : list (row unit string)) :
  get_user_profile (length cats) (encode cats <$> df)
  = if decide (sum_Qc (rating <$> df) = 0) then None
    else Some ((λ g, genre_mass g df / sum_Qc (rating <$> df)) <$> cats).
Proof.
  unfold get_user_profile. rewrite column_sums_multiply.
  rewrite <-(list_fmap_compose (encode cats) rating).
  assert (rating ∘ encode cats = rating) as -> by done.
  case_decide; [done|]. by rewrite <-list_fmap_compose.
Qed.
End profile_formula.

(** ** The profile in terms of rating events *)

Global Instance sum_Qc_perm : Proper ((≡ₚ) ==> (=)) sum_Qc.
Proof.
  intros l1 l2 Hl. unfold sum_Qc.
  apply (foldr_permutation_proper (=) Qcplus); [solve_proper| |done].
  intros a b c. ring.
Qed.

Section events.
Local Open Scope Qc_scope.

Lemma sum_Qc_app (l1 l2 : list Qc) : sum_Qc (l1 ++ l2) = sum_Qc l1 + sum_Qc l2.
Proof.
  unfold sum_Qc. induction l1 as [|a l1 IH]; csimpl; [ring|].
  rewrite IH. ring.
Qed.

(** Grouping a frame by a key only reorders its rows. *)
Lemma group_by_insert {A K} `{EqDecision K} (k : A → K) (keys : list K)
    (x : A) (l : list A) :
  NoDup keys → k x ∈ keys →
  keys ≫= (λ key, filter (λ y, k y = key) (x :: l))
  ≡ₚ x :: keys ≫= (λ key, filter (λ y, k y = key) l).
Proof.
  induction 1 as [|key keys Hkey Hnd IH]; intros Hin.
  - by apply elem_of_nil in Hin.
  - rewrite !bind_cons, filter_cons.
    destruct (decide (k x = key)) as [Hk|Hk].
    + simpl. constructor. f_equiv.
      assert (Forall (λ key', filter (λ y, k y = key') (x :: l)
                              = filter (λ y, k y = key') l) keys) as Hall.
      { apply Forall_forall. intros key' Hkey'. rewrite filter_cons.
        rewrite decide_False; [done|]. congruence. }
      clear -Hall. induction Hall as [|key' keys Heq _ IH]; [done|].
      by rewrite !bind_cons, Heq, IH.
    + apply elem_of_cons in Hin as [?|Hin]; [congruence|].
      rewrite (IH Hin). by rewrite Permutation_middle.
Qed.

Lemma group_by_perm {A K} `{EqDecision K} (k : A → K) (l : list A) :
  l ≡ₚ drop_duplicates (k <$> l) ≫= (λ key, filter (λ y, k y = key) l).
Proof.
  assert (∀ keys, NoDup keys → Forall (λ x, k x ∈ keys) l →
            l ≡ₚ keys ≫= (λ key, filter (λ y, k y = key) l)) as Hgen.
  { intros keys Hnd. induction 1 as [|x l Hx _ IH].
    - clear Hnd. induction keys as [|key keys IH]; [done|].
      by rewrite bind_cons, <-IH.
    - rewrite group_by_insert by done. by constructor. }
  apply Hgen; [apply NoDup_drop_duplicates|].
  apply Forall_forall. intros x Hx.
  apply elem_of_drop_duplicates. by apply list_elem_of_fmap_2.
Qed.

Lemma sum_Qc_bind {A B} (f : A → list B) (w : B → Qc) (l : list A) :
  sum_Qc (w <$> (l ≫= f)) = sum_Qc ((λ x, sum_Qc (w <$> f x)) <$> l).
Proof.
  induction l as [|x l IH]; [done|].
  rewrite bind_cons, fmap_app, sum_Qc_app, IH. done.
Qed.

Lemma filter_bind {A B} (f : A → list B) (P : B → Prop)
    `{∀ y, Decision (P y)} (l : list A) :
  filter P (l ≫= f) = l ≫= (λ x, filter P (f x)).
Proof.
  induction l as [|x l IH]; [done|].
  by rewrite !bind_cons, filter_app, IH.
Qed.

(** The rows of one event carry the same rating. *)
Lemma sum_Qc_constant (r : Qc) (l : list (row unit string)) :
  Forall (λ x, rating x = r) l →
  sum_Qc (rating <$> l) = Qc_of_Z (Z.of_nat (length l)) * r.
Proof.
  induction 1 as [|x l Hx _ IH].
  - change (Q2Qc 0 = Qc_of_Z 0 * r). rewrite Z2Qc_inj_0. ring.
  - rewrite fmap_cons. change (sum_Qc (?a :: ?b)) with (a + sum_Qc b).
    rewrite IH, Hx. cbn [length]. rewrite Nat2Z.inj_succ, <-Z.add_1_r.
    rewrite Z2Qc_inj_add, Z2Qc_inj_1. ring.
Qed.

Lemma sum_Qc_label (r : Qc) (g : string) (l : list (row unit string)) :
  NoDup (genres <$> l) → Forall (λ x, rating x = r) l →
  sum_Qc (rating <$> filter (λ x : row unit string, genres x = g) l)
  = Qc_of_Z (if decide (g ∈ genres <$> l) then 1 else 0) * r.
Proof.
  intros Hnd Hall. induction Hall as [|x l Hx _ IH].
  - change (Q2Qc 0 = Qc_of_Z 0 * r). rewrite Z2Qc_inj_0. ring.
  - rewrite fmap_cons in Hnd. apply NoDup_cons in Hnd as [Hnot Hnd].
    rewrite filter_cons, fmap_cons.
    destruct (decide (genres x = g)) as [Hg|Hg].
    + rewrite fmap_cons. change (sum_Qc (?a :: ?b)) with (a + sum_Qc b).
      rewrite (IH Hnd), Hx. rewrite decide_False by congruence.
      rewrite decide_True by (rewrite Hg; by left).
      rewrite Z2Qc_inj_0, Z2Qc_inj_1. ring.
    + rewrite (IH Hnd). f_equal. f_equal.
      destruct (decide (g ∈ genres <$> l)).
      * rewrite decide_True; [done|by right].
      * rewrite decide_False; [done|].
        intros [?|?]%elem_of_cons; congruence.
Qed.
End events.

Section events_profile.
Local Open Scope Qc_scope.

Lemma column_sums_pointwise {E} (w : E → string → Qc) (cats : list string)
    (events : list E) :
  column_sums (length cats) ((λ ev, w ev <$> cats) <$> events)
  = (λ c, sum_Qc ((λ ev, w ev c) <$> events)) <$> cats.
Proof.
  unfold column_sums. induction events as [|ev events IH].
  - csimpl. induction cats as [|c cats IHc]; [done|]. csimpl. by f_equal.
  - rewrite fmap_cons. cbn [foldr]. rewrite IH, zip_with_fmap_same.
    apply list_fmap_ext. intros _ c _. by rewrite fmap_cons.
Qed.

(** The label of a vocabulary column, as a 0/1 weight on an event. *)
Lemma weighted_vectors_formula cats (events : list (list string * Qc)) :
  weighted_vectors cats events
  = (λ c, sum_Qc ((λ ev : list string * Qc,
                     Qc_of_Z (if decide (c ∈ ev.1) then 1 else 0) * ev.2)
                    <$> events)) <$> cats.
Proof.
  unfold weighted_vectors, spec_catalog_vector.
  rewrite <-(column_sums_pointwise
               (λ (ev : list string * Qc) c,
                  Qc_of_Z (if decide (c ∈ ev.1) then 1 else 0) * ev.2)).
  f_equal. apply list_fmap_ext. intros _ ev _.
  by rewrite <-list_fmap_compose.
Qed.

Lemma event_rows_label_injective (u : Z) (user_df : list (row unit string))
    (ev : Z * Qc * string) :
  Forall (λ x, userId x = u) user_df →
  NoDup user_df →
  NoDup (genres <$> filter (λ x, event_of x = ev) user_df).
Proof.
  intros Hu Hnd. apply NoDup_fmap_2_strong; [|by apply NoDup_filter].
  intros x y [Hx Hxin]%list_elem_of_filter [Hy Hyin]%list_elem_of_filter Hg.
  rewrite Forall_forall in Hu.
  pose proof (Hu x Hxin) as Hux. pose proof (Hu y Hyin) as Huy.
  destruct x as [? ? ? [] ? ?], y as [? ? ? [] ? ?].
  unfold event_of in *. simpl in *. congruence.
Qed.

Lemma event_rows_rating (user_df : list (row unit string))
    (ev : Z * Qc * string) :
  Forall (λ x, rating x = ev.1.2) (filter (λ x, event_of x = ev) user_df).
Proof.
  apply Forall_forall. intros x [<- _]%list_elem_of_filter. done.
Qed.

Lemma genre_mass_events (u : Z) (user_df : list (row unit string)) g :
  Forall (λ x, userId x = u) user_df →
  NoDup user_df →
  genre_mass g user_df
  = sum_Qc ((λ ev : list string * Qc,
               Qc_of_Z (if decide (g ∈ ev.1) then 1 else 0) * ev.2)
              <$> user_events user_df).
Proof.
  intros Hu Hnd. unfold genre_mass, user_events.
  rewrite <-list_fmap_compose.
  pose proof (group_by_perm event_of user_df) as Hperm.
  rewrite (sum_Qc_perm _ _ (fmap_Permutation rating _ _
             (filter_Permutation _ _ _ Hperm))).
  rewrite filter_bind, sum_Qc_bind. f_equal.
  apply list_fmap_ext. intros _ ev _. simpl.
  apply sum_Qc_label.
  - by apply (event_rows_label_injective u).
  - apply event_rows_rating.
Qed.

Lemma rating_mass_events (user_df : list (row unit string)) :
  sum_Qc (rating <$> user_df) = exploded_mass (user_events user_df).
Proof.
  unfold exploded_mass, user_events. rewrite <-list_fmap_compose.
  pose proof (group_by_perm event_of user_df) as Hperm.
  rewrite (sum_Qc_perm _ _ (fmap_Permutation rating _ _ Hperm)) at 1.
  rewrite sum_Qc_bind. f_equal.
  apply list_fmap_ext. intros _ ev _. simpl. rewrite length_fmap.
  apply sum_Qc_constant, event_rows_rating.
Qed.
End events_profile.

(** C1, as stated, fails on the worked scenario: the rating-weighted mean is
    [2/3, 1], the profile built is [2/5, 3/5], because the denominator adds
    the rating 4 of the two-genre movie twice (4 + 4 + 2 = 10). *)
Lemma profile_is_not_weighted_mean :
  this <$> spec_profile ["Action"; "Comedy"]%string ex_events_7
    = [2 # 3; 1]%Q
  ∧ (∃ p, user_profiles ex_env !! 7 = Some (Some p)
          ∧ this <$> p = [2 # 5; 3 # 5]%Q)
  ∧ user_profiles ex_env !! 7
    ≠ Some (Some (spec_profile ["Action"; "Comedy"]%string ex_events_7)).
Proof.
  split; [by vm_compute|]. split; [eexists; split; by vm_compute|].
  destruct ex_profile_7 as (p & Hp & Hthis). rewrite Hp.
  intros [= ->]. vm_compute in Hthis. discriminate Hthis.
Qed.

(** C1 (amended): the profile of a user is, for every vocabulary genre [g],
    the sum of the ratings on the user's cleaned (movie, genre) rows whose
    genre is [g], divided by the sum of the ratings on all of the user's
    cleaned (movie, genre) rows.  In terms of the user's rating events it is
    the rating-weighted sum of the full binary genre vectors, as claimed,
    divided by the sum of the ratings each counted once per genre of its
    movie; in the worked scenario this is [4/10, 6/10] = [2/5, 3/5]. *)
Theorem profile_is_row_weighted :
  (∀ ratings movies user_id p,
     let df := clean ratings movies in
     let user_df := filter (λ r : row unit string, userId r = user_id) df in
     user_profiles (build_model ratings movies) !! user_id = Some (Some p) →
     p = (λ g, (genre_mass g user_df / sum_Qc (rating <$> user_df))%Qc)
           <$> categories df
     ∧ p = (λ x, (x / exploded_mass (user_events user_df))%Qc)
             <$> weighted_vectors (categories df) (user_events user_df))
  ∧ (∃ p, user_profiles ex_env !! 7 = Some (Some p)
          ∧ this <$> p = [2 # 5; 3 # 5]%Q
          ∧ genre_cols ex_env = ["genres_Action"; "genres_Comedy"]%string
          ∧ user_events (filter (λ r : row unit string, userId r = 7)
                                (clean ex_ratings ex_movies))
            = ex_events_7).
Proof.
  split.
  - intros ratings movies user_id p df user_df.
    rewrite lookup_user_profiles. case_decide; [|done].
    rewrite get_user_profile_formula. case_decide; [done|].
    intros [= <-]. split; [done|].
    rewrite weighted_vectors_formula, <-list_fmap_compose.
    apply list_fmap_ext. intros _ g _. simpl.
    rewrite <-rating_mass_events. f_equal.
    apply (genre_mass_events user_id).
    + apply Forall_forall. by intros x [? _]%list_elem_of_filter.
    + apply NoDup_filter, NoDup_clean.
  - destruct ex_profile_7 as (p & Hp & Hthis). exists p.
    split; [done|]. split; [by rewrite Hthis|]. split; by vm_compute.
Qed.

Lemma profile_is_row_weighted_witness :
  ∃ p, user_profiles ex_env !! 7 = Some (Some p)
       ∧ p = (λ g, (genre_mass g
                      (filter (λ r : row unit string, userId r = 7)
                              (clean ex_ratings ex_movies))
                    / sum_Qc (rating <$> filter
                                (λ r : row unit string, userId r = 7)
                                (clean ex_ratings ex_movies)))%Qc)
               <$> categories (clean ex_ratings ex_movies).
Proof.
  destruct profile_is_row_weighted as [H _].
  assert (∃ p, user_profiles ex_env !! 7 = Some (Some p)) as [p Hp]
    by pick_profile.
  exists p. split; [exact Hp|].
  exact (proj1 (H ex_ratings ex_movies 7 p Hp)).
Defined.

(** ** Catalog vectors *)

(** C2 fails on the code: every catalog vector is the dummy block of a single
    (movie, genre) row, so it has its 1 in one column only; in the worked
    scenario movie 1 (Action and Comedy) gets [1; 0] where the vector of its
    full genre set is [1; 1]. *)
Theorem catalog_vector_is_one_row :
  (∀ ratings movies f,
     f ∈ mf_rows (movie_features (build_model ratings movies)) →
     ∃ g, g ∈ categories (clean ratings movies)
          ∧ f_genres f = one_hot (categories (clean ratings movies)) g)
  ∧ loc 1 (movie_features ex_env) = Some (Feature 1 "One" [1; 0])
  ∧ spec_catalog_vector ["Action"; "Comedy"]%string
      (str_split "|" "Action|Comedy") = [1; 1].
Proof.
  split; [|split; by vm_compute].
  intros ratings movies f (x & Hx & ->)%elem_of_mf_rows.
  exists (genres x). split; [|done]. apply elem_of_categories. eauto.
Qed.

(** ** Row order of the inputs *)

Lemma clean_perm ratings1 ratings2 movies1 movies2 :
  ratings1 ≡ₚ ratings2 → movies1 ≡ₚ movies2 →
  clean ratings1 movies1 ≡ₚ clean ratings2 movies2.
Proof.
  intros Hr Hm. apply NoDup_Permutation; [apply NoDup_clean..|].
  intros x. rewrite !elem_of_clean.
  split; intros (r & m & g & Hr' & Hm' & H); exists r, m, g;
    (split; [|split]; [| |exact H]).
  - by rewrite <-Hr.
  - by rewrite <-Hm.
  - by rewrite Hr.
  - by rewrite Hm.
Qed.

(** The vocabulary depends on the set of surviving labels only. *)
Lemma categories_perm_eq {T} (df1 df2 : list (row T string)) :
  (∀ g, g ∈ genres <$> df1 ↔ g ∈ genres <$> df2) →
  categories df1 = categories df2.
Proof.
  intros Hiff.
  apply (Sorted_unique String.le); [apply Sorted_categories..|].
  apply NoDup_Permutation; [apply NoDup_categories..|].
  intros g. rewrite !elem_of_categories.
  specialize (Hiff g). rewrite !list_elem_of_fmap in Hiff.
  split; intros (x & Hx & <-).
  - destruct (proj1 Hiff) as (y & Hy & ?); eauto.
  - destruct (proj2 Hiff) as (y & Hy & ?); eauto.
Qed.

Lemma genre_mass_perm g df1 df2 :
  df1 ≡ₚ df2 → genre_mass g df1 = genre_mass g df2.
Proof. intros Hdf. unfold genre_mass. by rewrite Hdf. Qed.

Lemma user_profiles_perm ratings1 ratings2 movies1 movies2 :
  ratings1 ≡ₚ ratings2 → movies1 ≡ₚ movies2 →
  user_profiles (build_model ratings1 movies1)
  = user_profiles (build_model ratings2 movies2).
Proof.
  intros Hr Hm. pose proof (clean_perm _ _ _ _ Hr Hm) as Hc.
  assert (categories (clean ratings1 movies1)
          = categories (clean ratings2 movies2)) as Hcats.
  { apply categories_perm_eq. intros g. by rewrite Hc. }
  apply map_eq. intros u. rewrite !lookup_user_profiles.
  rewrite !get_user_profile_formula, <-Hcats.
  assert (filter (λ r : row unit string, userId r = u) (clean ratings1 movies1)
          ≡ₚ filter (λ r : row unit string, userId r = u)
                    (clean ratings2 movies2)) as Hu by (by rewrite Hc).
  rewrite <-(sum_Qc_perm _ _ (fmap_Permutation rating _ _ Hu)).
  assert (u ∈ userId <$> clean ratings1 movies1
          ↔ u ∈ userId <$> clean ratings2 movies2) as Hiff by (by rewrite Hc).
  destruct (decide (u ∈ userId <$> clean ratings1 movies1)),
    (decide (u ∈ userId <$> clean ratings2 movies2)); try tauto.
  f_equal. case_decide; [done|]. f_equal. apply list_fmap_ext. intros _ g _.
  by rewrite (genre_mass_perm g _ _ Hu).
Qed.

(** ** The first surviving row of a movie *)

Lemma head_fmap {A B} (f : A → B) (l : list A) : head (f <$> l) = f <$> head l.
Proof. by destruct l. Qed.

Lemma head_filter_drop_duplicates_from {A} `{EqDecision A} (P : A → Prop)
    `{∀ x, Decision (P x)} (seen l : list A) :
  head (filter P (drop_duplicates_from (λ x, x) seen l))
  = head (filter (λ x, P x ∧ x ∉ seen) l).
Proof.
  revert seen. induction l as [|x l IH]; intros seen; [done|]. simpl.
  destruct (decide (x ∈ seen)) as [Hx|Hx].
  - rewrite IH. rewrite (filter_cons (λ x, P x ∧ x ∉ seen)).
    rewrite decide_False by tauto. done.
  - rewrite filter_cons, (filter_cons (λ x, P x ∧ x ∉ seen)).
    destruct (decide (P x)) as [HP|HP].
    + rewrite decide_True by tauto. done.
    + rewrite decide_False by tauto. rewrite IH. f_equal.
      apply list_filter_iff. intros y. rewrite not_elem_of_cons.
      split; [tauto|]. intros [? ?]. repeat split; try done. congruence.
Qed.

(** Dropping duplicate rows does not change which row is the first to
    satisfy a condition. *)
Lemma head_filter_drop_duplicates {A} `{EqDecision A} (P : A → Prop)
    `{∀ x, Decision (P x)} (l : list A) :
  head (filter P (drop_duplicates l)) = head (filter P l).
Proof.
  unfold drop_duplicates, drop_duplicates_by.
  rewrite head_filter_drop_duplicates_from. f_equal.
  apply list_filter_iff. intros x. split; [tauto|].
  intros ?. split; [done|]. apply not_elem_of_nil.
Qed.

Lemma head_filter_bind {A B} (f : A → list B) (P : B → Prop)
    `{∀ y, Decision (P y)} (l : list A) :
  head (filter P (l ≫= f)) = head (omap (λ x, head (filter P (f x))) l).
Proof.
  induction l as [|x l IH]; [done|].
  rewrite bind_cons, filter_app, head_app. csimpl.
  destruct (filter P (f x)); simpl; [apply IH|done].
Qed.

Lemma fmap_head_omap {A B C} (f : A → option B) (g : B → C) (l : list A) :
  g <$> head (omap f l) = head (omap (λ x, g <$> f x) l).
Proof.
  induction l as [|x l IH]; [done|]. csimpl.
  destruct (f x); simpl; [done|apply IH].
Qed.

Lemma omap_ext_elem_of {A B} (f g : A → option B) (l : list A) :
  (∀ x, x ∈ l → f x = g x) → omap f l = omap g l.
Proof.
  induction l as [|x l IH]; intros Hfg; [done|]. csimpl.
  rewrite (Hfg x) by (by left). rewrite IH by (intros; apply Hfg; by right).
  done.
Qed.

Lemma head_omap_constant {A B} (k : A → Z) (id : Z) (E : option B)
    (l : list A) :
  head (omap (λ x, if decide (k x = id) then E else None) l)
  = if decide (id ∈ k <$> l) then E else None.
Proof.
  induction l as [|x l IH]; [done|]. csimpl.
  destruct (decide (k x = id)) as [Hk|Hk].
  - rewrite decide_True by (rewrite <-Hk; by left).
    destruct E; simpl; [done|]. rewrite IH. by case_decide.
  - rewrite IH. destruct (decide (id ∈ k <$> l)).
    + rewrite decide_True; [done|by right].
    + rewrite decide_False; [done|]. intros [?|?]%elem_of_cons; congruence.
Qed.

Lemma head_perm_constant {A} (l1 l2 : list A) :
  l1 ≡ₚ l2 → (∀ x y, x ∈ l1 → y ∈ l1 → x = y) → head l1 = head l2.
Proof.
  intros Hp Hconst. destruct l1 as [|x l1], l2 as [|y l2]; simpl.
  - done.
  - by apply Permutation_nil_cons in Hp.
  - symmetry in Hp. by apply Permutation_nil_cons in Hp.
  - f_equal. apply Hconst; [by left|]. rewrite Hp. by left.
Qed.

Lemma drop_timestamp_app {T G} (l1 l2 : list (row T G)) :
  drop_timestamp (l1 ++ l2) = drop_timestamp l1 ++ drop_timestamp l2.
Proof. apply fmap_app. Qed.

Lemma explode_app {T} (l1 l2 : list (row T (list string))) :
  explode (l1 ++ l2) = explode l1 ++ explode l2.
Proof. apply bind_app. Qed.

Lemma split_genres_app {T} (l1 l2 : list (row T string)) :
  split_genres (l1 ++ l2) = split_genres l1 ++ split_genres l2.
Proof. apply fmap_app. Qed.

Lemma exploded_block_eq movies r :
  drop_timestamp (explode (split_genres (merge [r] movies)))
  = exploded_block movies r.
Proof.
  unfold merge, exploded_block. rewrite bind_singleton.
  induction movies as [|m movies IH]; [done|].
  rewrite !bind_cons, split_genres_app, explode_app, drop_timestamp_app, IH.
  f_equal. case_decide; [|done].
  unfold split_genres, explode, drop_timestamp. csimpl.
  rewrite app_nil_r, <-list_fmap_compose. done.
Qed.

Lemma exploded_eq ratings movies :
  drop_timestamp (explode (split_genres (merge ratings movies)))
  = ratings ≫= exploded_block movies.
Proof.
  induction ratings as [|r ratings IH]; [done|].
  rewrite bind_cons, <-IH, <-exploded_block_eq.
  rewrite <-drop_timestamp_app, <-explode_app, <-split_genres_app.
  unfold merge. by rewrite <-bind_app.
Qed.

Lemma head_exploded_block movies r id :
  title_genre
    <$> head (filter (λ x : row unit string,
                        movieId x = id ∧ genres x ≠ no_genres_listed)
                     (exploded_block movies r))
  = if decide (r_movieId r = id) then catalog_entry movies id else None.
Proof.
  unfold exploded_block, catalog_entry.
  rewrite head_filter_bind, fmap_head_omap.
  destruct (decide (r_movieId r = id)) as [Hid|Hid].
  - f_equal. apply omap_ext_elem_of. intros m _. rewrite Hid.
    destruct (decide (id = m_movieId m)) as [Hm'|Hm'].
    + rewrite decide_True by done. unfold first_label.
      rewrite filter_fmap, head_fmap.
      rewrite (list_filter_iff _ (λ g, g ≠ no_genres_listed)).
      * by destruct (head _).
      * intros g. simpl. tauto.
    + rewrite decide_False by done. done.
  - replace (omap _ movies) with (@nil (string * string)); [done|].
    symmetry. induction movies as [|m movies IH]; [done|]. csimpl.
    rewrite <-IH. case_decide; [|done].
    rewrite filter_fmap.
    rewrite (list_filter_iff _ (λ _, False)); [|simpl; tauto].
    assert (∀ l : list string, filter (λ _, False) l = []) as ->; [|done].
    intros l. induction l as [|g l IHl]; [done|].
    rewrite filter_cons. by case_decide.
Qed.

Lemma head_clean ratings movies id :
  title_genre
    <$> head (filter (λ x : row unit string, movieId x = id)
                     (clean ratings movies))
  = if decide (id ∈ r_movieId <$> ratings) then catalog_entry movies id
    else None.
Proof.
  unfold clean. rewrite list_filter_filter, head_filter_drop_duplicates.
  rewrite exploded_eq, head_filter_bind, fmap_head_omap.
  rewrite <-(head_omap_constant r_movieId id (catalog_entry movies id)).
  f_equal. apply omap_ext_elem_of. intros r _.
  apply head_exploded_block.
Qed.

(** The catalog row of a movie id: present when some rating row mentions the
    id, with the title and the single label of [catalog_entry]. *)
Lemma loc_build_model ratings movies id :
  loc id (movie_features (build_model ratings movies))
  = (λ tg : string * string,
       Feature id tg.1 (one_hot (categories (clean ratings movies)) tg.2))
      <$> (if decide (id ∈ r_movieId <$> ratings)
           then catalog_entry movies id else None).
Proof.
  rewrite <-head_clean. unfold loc. rewrite mf_rows_build_model.
  rewrite filter_fmap, head_fmap. simpl.
  rewrite (head_filter_drop_duplicates_by movieId).
  rewrite filter_fmap, head_fmap. simpl.
  destruct (filter _ (clean ratings movies)) as [|x l] eqn:Hfl; [done|].
  simpl. unfold to_feature, encode. simpl. f_equal. f_equal.
  assert (x ∈ filter (λ x : row unit string, movieId x = id)
                     (clean ratings movies)) as [? _]%list_elem_of_filter
    by (rewrite Hfl; by left).
  done.
Qed.

Lemma catalog_entry_perm movies1 movies2 id :
  movies1 ≡ₚ movies2 →
  (∀ m m', m ∈ movies1 → m' ∈ movies1 → m_movieId m = m_movieId m' → m = m') →
  catalog_entry movies1 id = catalog_entry movies2 id.
Proof.
  intros Hm Huniq. unfold catalog_entry.
  apply head_perm_constant; [by rewrite Hm|].
  intros x y (m & Hin & Hx)%list_elem_of_omap (m' & Hin' & Hy)%list_elem_of_omap.
  case_decide as Hid; [|done]. case_decide as Hid'; [|done].
  assert (m = m') as <- by (apply Huniq; congruence).
  congruence.
Qed.

(** C6, as stated, fails: swapping the two movie rows of id 1 changes the
    genre vector the catalog holds for movie 1. *)
Lemma catalog_depends_on_movie_row_order :
  dup_movies ≡ₚ reverse dup_movies
  ∧ loc 1 (movie_features (build_model dup_ratings dup_movies))
    = Some (Feature 1 "One" [1; 0])
  ∧ loc 1 (movie_features (build_model dup_ratings (reverse dup_movies)))
    = Some (Feature 1 "One" [0; 1]).
Proof.
  split; [apply Permutation_swap|]. split; by vm_compute.
Qed.

(** C6 (amended): for input relations that are permutations of one another,
    the built Vocabulary (with its order), the UserProfiles and the set of
    catalog movie ids are identical; the catalog row of every movie id (title
    and genre vector) is identical provided that the movie rows sharing a
    movie id are equal. *)
Theorem build_model_row_order ratings1 ratings2 movies1 movies2 :
  ratings1 ≡ₚ ratings2 → movies1 ≡ₚ movies2 →
  let e1 := build_model ratings1 movies1 in
  let e2 := build_model ratings2 movies2 in
  genre_cols e1 = genre_cols e2
  ∧ user_profiles e1 = user_profiles e2
  ∧ (∀ id, is_Some (loc id (movie_features e1))
           ↔ is_Some (loc id (movie_features e2)))
  ∧ ((∀ m m', m ∈ movies1 → m' ∈ movies1 →
              m_movieId m = m_movieId m' → m = m') →
     ∀ id, loc id (movie_features e1) = loc id (movie_features e2)).
Proof.
  intros Hr Hm e1 e2. subst e1 e2.
  pose proof (clean_perm _ _ _ _ Hr Hm) as Hc.
  assert (categories (clean ratings1 movies1)
          = categories (clean ratings2 movies2)) as Hcats.
  { apply categories_perm_eq. intros g. by rewrite Hc. }
  split; [|split; [|split]].
  - unfold build_model. cbn [genre_cols].
    by rewrite !genre_cols_of_get_dummies, Hcats.
  - by apply user_profiles_perm.
  - intros id. rewrite <-!not_eq_None_Some, !loc_None.
    apply not_iff_compat, not_iff_compat.
    split; intros (f & -> & (x & Hx & ->)%elem_of_mf_rows)%list_elem_of_fmap;
      simpl; apply movieId_in_mf_rows.
    + by rewrite <-Hc.
    + by rewrite Hc.
  - intros Huniq id. rewrite !loc_build_model, Hcats.
    rewrite (catalog_entry_perm movies1 movies2 id Hm Huniq).
    assert (id ∈ r_movieId <$> ratings1 ↔ id ∈ r_movieId <$> ratings2) as Hiff
      by (by rewrite Hr).
    destruct (decide (id ∈ r_movieId <$> ratings1)),
      (decide (id ∈ r_movieId <$> ratings2)); tauto || done.
Qed.

Lemma build_model_row_order_witness :
  genre_cols (build_model ex_ratings ex_movies)
  = genre_cols (build_model (reverse ex_ratings) (reverse ex_movies))
  ∧ user_profiles (build_model ex_ratings ex_movies)
    = user_profiles (build_model (reverse ex_ratings) (reverse ex_movies))
  ∧ ∀ id, loc id (movie_features (build_model ex_ratings ex_movies))
          = loc id (movie_features
                      (build_model (reverse ex_ratings) (reverse ex_movies))).
Proof.
  destruct (build_model_row_order ex_ratings (reverse ex_ratings)
              ex_movies (reverse ex_movies))
    as (Hcols & Hprof & _ & Hloc).
  - by rewrite reverse_Permutation.
  - by rewrite reverse_Permutation.
  - split; [exact Hcols|]. split; [exact Hprof|]. apply Hloc.
    clear Hcols Hprof Hloc. intros m m' Hm Hm' Hid.
    apply list_elem_of_In in Hm, Hm'. simpl in Hm, Hm'.
    destruct Hm as [<-|[<-|[<-|[]]]], Hm' as [<-|[<-|[<-|[]]]];
      (reflexivity || discriminate Hid).
Defined.

(** * Further properties of the pipeline *)

(** ** Splitting the genre field *)

Lemma str_split_nonempty sep s : str_split sep s ≠ [].
Proof.
  destruct s as [|c s]; simpl; [done|].
  case_decide; [done|]. by destruct (str_split sep s).
Qed.

Lemma str_join_cons_char sep c w ws :
  str_join sep (String c w :: ws) = String c (str_join sep (w :: ws)).
Proof. by destruct ws. Qed.

Lemma str_join_cons_cons sep a b l :
  str_join sep (a :: b :: l) = a +:+ String sep (str_join sep (b :: l)).
Proof. done. Qed.

Lemma str_join_split sep s : str_join sep (str_split sep s) = s.
Proof.
  induction s as [|c s IH]; [done|]. simpl.
  pose proof (str_split_nonempty sep s) as Hne.
  case_decide as Hc.
  - destruct (str_split sep s) as [|w ws] eqn:Hs; [done|].
    rewrite str_join_cons_cons, IH. simpl. by rewrite Hc.
  - destruct (str_split sep s) as [|w ws] eqn:Hs; [done|].
    by rewrite str_join_cons_char, IH.
Qed.

Lemma str_split_no_sep sep s :
  Forall (λ w, sep ∉ chars w) (str_split sep s).
Proof.
  induction s as [|c s IH]; simpl.
  - repeat constructor. apply not_elem_of_nil.
  - case_decide as Hc.
    + constructor; [apply not_elem_of_nil|done].
    + destruct (str_split sep s) as [|w ws]; simpl.
      * repeat constructor. intros [?|?%elem_of_nil]%elem_of_cons; congruence.
      * apply Forall_cons in IH as [Hw Hws]. constructor; [|done].
        simpl. intros [?|?]%elem_of_cons; [congruence|done].
Qed.

Lemma str_split_join sep l :
  l ≠ [] → Forall (λ w, sep ∉ chars w) l →
  str_split sep (str_join sep l) = l.
Proof.
  intros Hne Hl. induction Hl as [|w l Hw Hl IH]; [done|]. clear Hne.
  induction w as [|c w IHw].
  - destruct l as [|w' l']; [done|].
    rewrite str_join_cons_cons. simpl. rewrite decide_True by done.
    f_equal. by apply IH.
  - rewrite str_join_cons_char. cbn [str_split].
    rewrite decide_False by (intros ->; apply Hw; by left).
    rewrite IHw; [done|]. intros ?. apply Hw. by right.
Qed.

(** X1: splitting a genre field on the separator never gives an empty list,
    no label contains the separator, and joining the labels with the
    separator gives the field back; conversely every non-empty list of
    separator-free labels is the split of its join. *)
Theorem str_split_round_trip sep :
  (∀ s, str_split sep s ≠ []
        ∧ Forall (λ w, sep ∉ chars w) (str_split sep s)
        ∧ str_join sep (str_split sep s) = s)
  ∧ (∀ l, l ≠ [] → Forall (λ w, sep ∉ chars w) l →
          str_split sep (str_join sep l) = l).
Proof.
  split.
  - intros s. split; [apply str_split_nonempty|].
    split; [apply str_split_no_sep|apply str_join_split].
  - apply str_split_join.
Qed.

Lemma str_split_round_trip_witness :
  str_split "|" (str_join "|" ["Action"; ""; "Comedy"]%string)
  = ["Action"; ""; "Comedy"]%string.
Proof.
  apply (str_split_round_trip "|"); [done|].
  apply (bool_decide_unpack _). by vm_compute.
Defined.

(** ** Dropping duplicates *)

Section drop_duplicates_more.
Context {A K : Type} `{EqDecision K} (key : A → K).

Lemma drop_duplicates_from_sublist seen l :
  drop_duplicates_from key seen l `sublist_of` l.
Proof.
  revert seen. induction l as [|x l IH]; intros seen; simpl.
  - constructor.
  - case_decide; [apply sublist_cons, IH|apply sublist_skip, IH].
Qed.

Lemma drop_duplicates_from_NoDup seen l :
  NoDup (key <$> l) → Forall (λ x, key x ∉ seen) l →
  drop_duplicates_from key seen l = l.
Proof.
  revert seen. induction l as [|x l IH]; intros seen Hnd Hseen; [done|].
  rewrite fmap_cons in Hnd. apply NoDup_cons in Hnd as [Hx Hnd].
  apply Forall_cons in Hseen as [Hxs Hseen]. simpl.
  rewrite decide_False by done. f_equal. apply IH; [done|].
  apply Forall_forall. intros y Hy [Heq|Hin]%elem_of_cons.
  - apply Hx. rewrite <-Heq. by apply list_elem_of_fmap_2.
  - rewrite Forall_forall in Hseen. by apply (Hseen y).
Qed.

(** X2: [drop_duplicates] with [keep="first"] leaves no two rows with the
    same key, keeps the surviving rows in their original order, keeps every
    key, keeps for each key exactly the first row that carries it, changes
    nothing on a frame without duplicate keys, and is idempotent. *)
Theorem drop_duplicates_keeps_first (l : list A) :
  NoDup (key <$> drop_duplicates_by key l)
  ∧ drop_duplicates_by key l `sublist_of` l
  ∧ (∀ k, k ∈ key <$> drop_duplicates_by key l ↔ k ∈ key <$> l)
  ∧ (∀ k, filter (λ x, key x = k) (drop_duplicates_by key l)
          = option_list (head (filter (λ x, key x = k) l)))
  ∧ (NoDup (key <$> l) → drop_duplicates_by key l = l)
  ∧ drop_duplicates_by key (drop_duplicates_by key l)
    = drop_duplicates_by key l.
Proof.
  assert (∀ l', NoDup (key <$> l') → drop_duplicates_by key l' = l') as Hid.
  { intros l' Hnd. apply drop_duplicates_from_NoDup; [done|].
    apply Forall_forall. intros ? _. apply not_elem_of_nil. }
  split; [apply NoDup_drop_duplicates_from|].
  split; [apply drop_duplicates_from_sublist|].
  split; [|split; [|split]].
  - intros k. split.
    + intros (x & -> & Hx%elem_of_drop_duplicates_by)%list_elem_of_fmap.
      by apply list_elem_of_fmap_2.
    + intros (x & -> & Hx)%list_elem_of_fmap.
      by apply drop_duplicates_by_keeps_key.
  - intros k. unfold drop_duplicates_by.
    rewrite filter_drop_duplicates_from.
    by rewrite decide_False by apply not_elem_of_nil.
  - apply Hid.
  - apply Hid, NoDup_drop_duplicates_from.
Qed.
End drop_duplicates_more.

Lemma drop_duplicates_keeps_first_witness :
  drop_duplicates_by fst [(1, "a"); (2, "b"); (3, "c")]%string
  = [(1, "a"); (2, "b"); (3, "c")]%string.
Proof.
  apply (drop_duplicates_keeps_first fst).
  apply (bool_decide_unpack _). by vm_compute.
Defined.

(** ** The cleaned frame *)

(** X3: a row is in the cleaned frame exactly when it joins a rating row with
    a movie row of the same id and carries one of that movie's labels other
    than the sentinel; the cleaned frame has no duplicate rows; and the rows
    removed by the sentinel filter are those shown as [filtered_df], so the
    two row counts add up to the count before the filter. *)
Theorem clean_rows ratings movies :
  (∀ x, x ∈ clean ratings movies ↔
        ∃ r m g, r ∈ ratings ∧ m ∈ movies ∧ r_movieId r = m_movieId m
                 ∧ g ∈ str_split "|" (m_genres m) ∧ g ≠ no_genres_listed
                 ∧ x = joined r m g)
  ∧ NoDup (clean ratings movies)
  ∧ clean ratings movies `sublist_of` deduplicated ratings movies
  ∧ deduplicated ratings movies
    ≡ₚ filtered_df ratings movies ++ clean ratings movies
  ∧ length (deduplicated ratings movies)
    = (length (filtered_df ratings movies)
       + length (clean ratings movies))%nat.
Proof.
  assert (deduplicated ratings movies
          ≡ₚ filtered_df ratings movies ++ clean ratings movies) as Hperm.
  { unfold filtered_df, clean. fold (deduplicated ratings movies).
    symmetry. apply (filter_app_complement
                       (λ r : row unit string, genres r = no_genres_listed)). }
  split; [apply elem_of_clean|]. split; [apply NoDup_clean|].
  split; [apply sublist_filter|]. split; [done|].
  by rewrite Hperm, length_app.
Qed.

(** ** The encoded frame *)

Lemma sum_Z_one_hot_absent cats g : g ∉ cats → sum_Z (one_hot cats g) = 0.
Proof.
  unfold sum_Z, one_hot. induction cats as [|c cats IH]; intros Hg; [done|].
  csimpl. rewrite decide_False by (intros ->; apply Hg; by left).
  rewrite IH; [done|]. intros ?. apply Hg. by right.
Qed.

Lemma sum_Z_one_hot cats g : NoDup cats → g ∈ cats → sum_Z (one_hot cats g) = 1.
Proof.
  induction 1 as [|c cats Hc Hnd IH]; intros Hg.
  - by apply elem_of_nil in Hg.
  - unfold one_hot. rewrite fmap_cons. fold (one_hot cats g).
    change (sum_Z (?a :: ?l)) with (a + sum_Z l).
    destruct (decide (c = g)) as [->|Hne].
    + by rewrite sum_Z_one_hot_absent.
    + rewrite IH; [done|]. apply elem_of_cons in Hg as [?|?]; [congruence|done].
Qed.

Lemma one_hot_lookup cats g i c :
  cats !! i = Some c →
  one_hot cats g !! i = Some (if decide (c = g) then 1 else 0).
Proof. intros Hc. unfold one_hot. by rewrite list_lookup_fmap, Hc. Qed.

Lemma sentinel_not_in_categories ratings movies :
  no_genres_listed ∉ categories (clean ratings movies).
Proof.
  intros (x & Hx & Hg)%elem_of_categories.
  apply elem_of_clean in Hx as (r & m & g & _ & _ & _ & _ & Hne & ->).
  by apply Hne.
Qed.

(** X4: the genre columns are the labels of the cleaned frame, each once, in
    sorted order, prefixed with [genres_], and the sentinel is not among
    them; [df_genres] has the rows of the cleaned frame in the same order,
    and each row's dummy block has one entry per genre column, all 0 except a
    single 1 in the column of the row's label. *)
Theorem get_dummies_one_hot ratings movies :
  let e := build_model ratings movies in
  let cats := categories (clean ratings movies) in
  genre_cols e = (λ c, "genres_" +:+ c) <$> cats
  ∧ Sorted String.le cats ∧ NoDup cats ∧ (no_genres_listed ∉ cats)
  ∧ (∀ g, g ∈ cats ↔ ∃ x, x ∈ clean ratings movies ∧ genres x = g)
  ∧ Forall2
      (λ (x : row unit string) (r : row unit (list Z)),
         userId r = userId x ∧ movieId r = movieId x ∧ rating r = rating x
         ∧ title r = title x
         ∧ length (genres r) = length (genre_cols e)
         ∧ sum_Z (genres r) = 1
         ∧ ∀ i c, cats !! i = Some c →
                  genres r !! i = Some (if decide (c = genres x) then 1 else 0))
      (clean ratings movies) (rows (df_genres e)).
Proof.
  intros e cats. subst e cats.
  split; [apply genre_cols_of_get_dummies|].
  split; [apply Sorted_categories|]. split; [apply NoDup_categories|].
  split; [apply sentinel_not_in_categories|].
  split; [apply elem_of_categories|].
  unfold build_model. cbn [df_genres genre_cols].
  rewrite rows_get_dummies, length_genre_cols.
  apply Forall2_fmap_r, Forall2_same_length_lookup.
  split; [done|]. intros i x y Hx Hy. simplify_eq. simpl.
  repeat split.
  - apply length_one_hot.
  - apply sum_Z_one_hot; [apply NoDup_categories|].
    apply elem_of_categories. exists x. split; [|done].
    by eapply list_elem_of_lookup_2.
  - intros j c Hc. by apply one_hot_lookup.
Qed.

(** ** Which users have a profile *)

Lemma elem_of_user_ids ratings movies u :
  u ∈ userId <$> clean ratings movies ↔
  ∃ r m g, r ∈ ratings ∧ r_userId r = u ∧ m ∈ movies
           ∧ r_movieId r = m_movieId m
           ∧ g ∈ str_split "|" (m_genres m) ∧ g ≠ no_genres_listed.
Proof.
  rewrite list_elem_of_fmap. split.
  - intros (x & -> & (r & m & g & ? & ? & ? & ? & ? & ->)%elem_of_clean).
    exists r, m, g. by repeat split.
  - intros (r & m & g & Hr & <- & Hm & Hid & Hg & Hne).
    exists (joined r m g). split; [done|]. apply elem_of_clean. eauto 10.
Qed.

(** X5: a user has an entry in [user_profiles] exactly when one of the user's
    rating rows joins a movie row that has a label other than the sentinel
    (so users whose ratings all point to unknown or genre-less movies have
    none); the entry is the non-finite vector exactly when the ratings on the
    user's cleaned rows sum to zero; and a finite profile has one component
    per genre column. *)
Theorem user_profiles_domain ratings movies u :
  let e := build_model ratings movies in
  let user_df := filter (λ r : row unit string, userId r = u)
                        (clean ratings movies) in
  (is_Some (user_profiles e !! u) ↔
   ∃ r m g, r ∈ ratings ∧ r_userId r = u ∧ m ∈ movies
            ∧ r_movieId r = m_movieId m
            ∧ g ∈ str_split "|" (m_genres m) ∧ g ≠ no_genres_listed)
  ∧ (user_profiles e !! u = Some None ↔
     is_Some (user_profiles e !! u) ∧ sum_Qc (rating <$> user_df) = Q2Qc 0)
  ∧ (∀ p, user_profiles e !! u = Some (Some p) →
          length p = length (genre_cols e)).
Proof.
  intros e user_df. subst e user_df.
  rewrite <-elem_of_user_ids, lookup_user_profiles, get_user_profile_formula.
  split; [|split].
  - case_decide; [by split; eauto|]. split; [by intros [? ?]|done].
  - case_decide as Hu; [|split; [done|by intros [[? ?] _]]].
    case_decide as Ht; split; try done; eauto.
    + by intros [_ ?].
  - intros p. case_decide; [|done]. case_decide; [done|].
    intros [= <-]. unfold build_model. cbn [genre_cols].
    by rewrite length_genre_cols, length_fmap.
Qed.

(** ** Profile components *)

Section profile_bounds.
Local Open Scope Qc_scope.

Lemma sum_Qc_nonneg (l : list Qc) : Forall (λ q, 0 ≤ q) l → 0 ≤ sum_Qc l.
Proof.
  unfold sum_Qc. induction 1 as [|q l Hq _ IH]; simpl; [done|].
  by apply Qcplus_nonneg_nonneg.
Qed.

Lemma genre_mass_le g (df : list (row unit string)) :
  Forall (λ x, 0 ≤ rating x) df →
  0 ≤ genre_mass g df ∧ genre_mass g df ≤ sum_Qc (rating <$> df).
Proof.
  unfold genre_mass. induction 1 as [|x df Hx Hdf [IH0 IH]].
  - done.
  - rewrite filter_cons, fmap_cons.
    change (sum_Qc (rating x :: ?l)) with (rating x + sum_Qc l).
    case_decide.
    + rewrite fmap_cons.
      change (sum_Qc (rating x :: ?l)) with (rating x + sum_Qc l).
      split; [by apply Qcplus_nonneg_nonneg|].
      by apply Qcplus_le_mono_l.
    + split; [done|].
      etrans; [exact IH|].
      rewrite <-(Qcplus_0_l (sum_Qc (rating <$> df))) at 1.
      by apply Qcplus_le_mono_r.
Qed.

Lemma Qcdiv_unit_interval (a t : Qc) :
  0 ≤ a → a ≤ t → t ≠ 0 → 0 ≤ a / t ∧ a / t ≤ 1.
Proof.
  intros Ha Hat Ht.
  assert (0 < t) as Hpos.
  { destruct (Qclt_le_dec 0 t) as [|Hle]; [done|].
    exfalso. apply Ht. apply Qcle_antisym; [done|]. by etrans. }
  assert (0 < / t) as Hinv by (by apply Qcinv_pos).
  unfold Qcdiv. split.
  - apply Qcmult_nonneg_nonneg; [done|]. by apply Qclt_le_weak.
  - rewrite <-(Qcmult_inv_r t Ht).
    apply Qcmult_le_mono_nonneg_r; [by apply Qclt_le_weak|done].
Qed.

Lemma profile_components_bounded_aux ratings movies u p :
  (∀ r, r ∈ ratings → r_userId r = u → 0 ≤ r_rating r) →
  user_profiles (build_model ratings movies) !! u = Some (Some p) →
  Forall (λ q, 0 ≤ q) p.
Proof.
  intros Hpos. rewrite lookup_user_profiles, get_user_profile_formula.
  case_decide; [|done]. case_decide as Ht; [done|]. intros [= <-].
  apply Forall_fmap, Forall_forall. intros g _. simpl.
  assert (Forall (λ x : row unit string, 0 ≤ rating x)
            (filter (λ r : row unit string, userId r = u)
                    (clean ratings movies))) as Hall.
  { apply Forall_forall. intros x [Hu Hx]%list_elem_of_filter.
    apply elem_of_clean in Hx as (r & m & g' & Hr & _ & _ & _ & _ & ->).
    by apply Hpos. }
  destruct (genre_mass_le g _ Hall) as [H0 Hle].
  by apply Qcdiv_unit_interval.
Qed.

(** X6: when none of the user's ratings is negative, every component of the
    user's finite profile lies between 0 and 1. *)
Theorem profile_components_bounded ratings movies u p :
  (∀ r, r ∈ ratings → r_userId r = u → 0 ≤ r_rating r) →
  user_profiles (build_model ratings movies) !! u = Some (Some p) →
  Forall (λ q, 0 ≤ q ∧ q ≤ 1) p.
Proof.
  intros Hpos. rewrite lookup_user_profiles, get_user_profile_formula.
  case_decide; [|done]. case_decide as Ht; [done|]. intros [= <-].
  apply Forall_fmap, Forall_forall. intros g _. simpl.
  assert (Forall (λ x : row unit string, 0 ≤ rating x)
            (filter (λ r : row unit string, userId r = u)
                    (clean ratings movies))) as Hall.
  { apply Forall_forall. intros x [Hu Hx]%list_elem_of_filter.
    apply elem_of_clean in Hx as (r & m & g' & Hr & _ & _ & _ & _ & ->).
    by apply Hpos. }
  destruct (genre_mass_le g _ Hall) as [H0 Hle].
  by apply Qcdiv_unit_interval.
Qed.
End profile_bounds.

Lemma profile_components_bounded_witness :
  ∃ p, user_profiles ex_env !! 7 = Some (Some p)
       ∧ Forall (λ q, (0 ≤ q)%Qc ∧ (q ≤ 1)%Qc) p.
Proof.
  assert (∃ p, user_profiles ex_env !! 7 = Some (Some p)) as [p Hp]
    by pick_profile.
  exists p. split; [exact Hp|].
  apply (profile_components_bounded ex_ratings ex_movies 7 p); [|exact Hp].
  intros r Hr _. apply list_elem_of_In in Hr. simpl in Hr.
  destruct Hr as [<-|[<-|[<-|[]]]]; by vm_compute.
Defined.

(** ** The catalog *)

Lemma fmap_drop_duplicates_from {A K} `{EqDecision K} (key : A → K)
    (seen : list K) (l : list A) :
  key <$> drop_duplicates_from key seen l
  = drop_duplicates_from (λ k, k) seen (key <$> l).
Proof.
  revert seen. induction l as [|x l IH]; intros seen; [done|]. csimpl.
  case_decide; [apply IH|]. csimpl. by rewrite IH.
Qed.

Lemma loc_catalog_row ratings movies f :
  f ∈ mf_rows (movie_features (build_model ratings movies)) →
  loc (f_movieId f) (movie_features (build_model ratings movies)) = Some f.
Proof.
  intros Hf. unfold loc.
  pose proof (NoDup_catalog_ids ratings movies) as Hnd.
  induction (mf_rows _) as [|f' l IH]; [by apply elem_of_nil in Hf|].
  rewrite fmap_cons in Hnd. apply NoDup_cons in Hnd as [Hnot Hnd].
  rewrite filter_cons. apply elem_of_cons in Hf as [->|Hf].
  - by rewrite decide_True.
  - rewrite decide_False; [by apply IH|].
    intros Heq. apply Hnot. rewrite Heq. by apply list_elem_of_fmap_2.
Qed.

(** X7: the catalog index is unique; a movie id is in the catalog exactly
    when some rating row mentions it and a movie row with that id has a label
    other than the sentinel, so a movie that nobody rated is never in the
    catalog; the row then carries the title and the one-hot vector of the
    first such movie row's first such label; and the frame starts without a
    [similarity] column. *)
Theorem catalog_rows ratings movies :
  let e := build_model ratings movies in
  let cats := categories (clean ratings movies) in
  NoDup (f_movieId <$> mf_rows (movie_features e))
  ∧ mf_similarity (movie_features e) = None
  ∧ (∀ f, f ∈ mf_rows (movie_features e) →
          loc (f_movieId f) (movie_features e) = Some f
          ∧ length (f_genres f) = length (genre_cols e)
          ∧ sum_Z (f_genres f) = 1)
  ∧ (∀ id, id ∈ f_movieId <$> mf_rows (movie_features e) ↔
           ∃ r m g, r ∈ ratings ∧ r_movieId r = id ∧ m ∈ movies
                    ∧ m_movieId m = id
                    ∧ g ∈ str_split "|" (m_genres m) ∧ g ≠ no_genres_listed)
  ∧ (∀ id, loc id (movie_features e)
           = if decide (id ∈ r_movieId <$> ratings)
             then (λ tg : string * string,
                     Feature id tg.1 (one_hot cats tg.2))
                    <$> catalog_entry movies id
             else None).
Proof.
  intros e cats. subst e cats.
  split; [apply NoDup_catalog_ids|]. split; [done|].
  split; [|split].
  - intros f Hf. split; [by apply loc_catalog_row|].
    apply elem_of_mf_rows in Hf as (x & Hx & ->). simpl.
    unfold build_model. cbn [genre_cols].
    rewrite length_genre_cols, length_one_hot. split; [done|].
    apply sum_Z_one_hot; [apply NoDup_categories|].
    apply elem_of_categories. eauto.
  - intros id. split.
    + intros (f & -> & (x & Hx & ->)%elem_of_mf_rows)%list_elem_of_fmap.
      apply elem_of_clean in Hx as (r & m & g & ? & ? & ? & ? & ? & ->).
      simpl. exists r, m, g. by repeat split.
    + intros (r & m & g & Hr & <- & Hm & Hid & Hg & Hne).
      apply (movieId_in_mf_rows ratings movies (joined r m g)).
      apply elem_of_clean. eauto 10.
  - intros id. rewrite loc_build_model. by case_decide.
Qed.

(** ** The printed counts *)

Lemma length_drop_duplicates_by {A K} `{EqDecision K} (key : A → K)
    (l : list A) :
  length (drop_duplicates_by key l) = nunique (key <$> l).
Proof.
  unfold nunique, unique, drop_duplicates, drop_duplicates_by.
  by rewrite <-fmap_drop_duplicates_from, length_fmap.
Qed.

Lemma size_list_to_map_fn {V} (f : Z → V) (l : list Z) :
  size (list_to_map ((λ u, (u, f u)) <$> l) : gmap Z V) = nunique l.
Proof.
  rewrite <-size_dom, dom_list_to_map_L, <-list_fmap_compose.
  assert (fst ∘ (λ u, (u, f u)) = (λ u : Z, u)) as -> by done.
  rewrite list_fmap_id.
  assert ((list_to_set l : gset Z) = list_to_set (unique l)) as ->.
  { apply set_eq. intros u. rewrite !elem_of_list_to_set.
    unfold unique. by rewrite elem_of_drop_duplicates. }
  apply size_list_to_set, NoDup_drop_duplicates.
Qed.

(** X8: the counts the notebook prints describe the model: the number of
    unique users is the number of entries of [user_profiles], the number of
    unique movies is the number of catalog rows, the number of distinct
    labels is the number of genre columns, and [df_genres] has one row per
    cleaned row and four columns besides the genre columns. *)
Theorem printed_counts ratings movies :
  let e := build_model ratings movies in
  nunique (userId <$> rows (df_genres e)) = size (user_profiles e)
  ∧ nunique (movieId <$> rows (df_genres e))
    = length (mf_rows (movie_features e))
  ∧ nunique (genres <$> clean ratings movies) = length (genre_cols e)
  ∧ shape (df_genres e)
    = (length (clean ratings movies), (4 + length (genre_cols e))%nat).
Proof.
  intros e. subst e. unfold build_model.
  cbn [df_genres user_profiles movie_features genre_cols].
  split; [|split; [|split]].
  - unfold build_user_profiles. symmetry.
    apply (size_list_to_map_fn
             (λ v, get_user_profile _ (filter (λ r : row unit (list Z),
                                                 userId r = v) _))).
  - unfold build_movie_features. cbn [mf_rows].
    by rewrite length_fmap, length_drop_duplicates_by.
  - rewrite length_genre_cols. unfold nunique, unique.
    by rewrite <-(Permutation_length (categories_perm _)).
  - unfold shape, columns. rewrite rows_get_dummies, length_fmap.
    f_equal. rewrite length_app, length_genre_cols. simpl.
    by rewrite length_fmap.
Qed.

(** ** What a recommendation contains *)

Lemma candidates_eq e user_id p :
  candidates e user_id p
  = (λ f, (f, similarity (Qc2R <$> p) (IZR <$> f_genres f)))
      <$> filter (λ f, f_movieId f ∉ already_rated_of e user_id)
                 (mf_rows (movie_features e)).
Proof.
  unfold candidates, scores_of, movie_vectors_of.
  by rewrite <-list_fmap_compose, zip_fmap_self, filter_fmap.
Qed.

Lemma NoDup_candidate_ids ratings movies user_id p :
  NoDup ((λ fs : feature * R, f_movieId fs.1)
           <$> candidates (build_model ratings movies) user_id p).
Proof.
  rewrite candidates_eq, <-list_fmap_compose.
  apply (sublist_NoDup _
           (f_movieId
              <$> mf_rows (movie_features (build_model ratings movies)))).
  - apply NoDup_catalog_ids.
  - apply (fmap_sublist f_movieId), sublist_filter.
Qed.

Lemma df_head_sublist {A} (n : Z) (l : list A) : df_head n l `sublist_of` l.
Proof. unfold df_head. case_decide; apply sublist_take. Qed.

Lemma df_head_prefix {A} (n n' : Z) (l : list A) :
  (0 ≤ n ≤ n')%Z → df_head n l `prefix_of` df_head n' l.
Proof.
  intros [Hn Hn']. unfold df_head. rewrite !decide_True by lia.
  replace (take (Z.to_nat n) l)
    with (take (Z.to_nat n) (take (Z.to_nat n') l)).
  - apply prefix_take.
  - rewrite take_take. f_equal. lia.
Qed.

(** X9: every row of a returned recommendation is a catalog row, paired with
    the similarity of the user's profile and that row's vector; no movie id
    appears twice; the user has no cleaned row for any of them; and asking
    for more rows only extends the list (the shorter answer is a prefix of
    the longer one). *)
Theorem recommend_output ratings movies user_id top_n out e' :
  let e := build_model ratings movies in
  recommend_movies e user_id top_n = (inr out, e') →
  ∃ p, user_profiles e !! user_id = Some (Some p)
    ∧ NoDup ((λ fs : feature * R, f_movieId fs.1) <$> out)
    ∧ (∀ f s, (f, s) ∈ out →
         f ∈ mf_rows (movie_features e)
         ∧ (f_movieId f ∉ already_rated_of e user_id)
         ∧ s = similarity (Qc2R <$> p) (IZR <$> f_genres f))
    ∧ (∀ n', (0 ≤ top_n ≤ n')%Z →
         ∃ out', recommend_movies e user_id n' = (inr out', e')
                 ∧ out `prefix_of` out').
Proof.
  intros e Hrec. subst e.
  apply recommend_movies_inr in Hrec as (p & Hp & -> & ->).
  exists p. split; [done|]. split; [|split].
  - apply (sublist_NoDup _
             ((λ fs : feature * R, f_movieId fs.1)
                <$> sort_values snd
                      (candidates (build_model ratings movies) user_id p))).
    + rewrite sort_values_perm. apply NoDup_candidate_ids.
    + apply fmap_sublist, df_head_sublist.
  - intros f s Hfs%elem_of_df_head. rewrite sort_values_perm in Hfs.
    pose proof (elem_of_candidates _ _ _ _ _ Hfs) as [Hf Hnot].
    split; [done|]. split; [done|].
    rewrite candidates_eq in Hfs.
    apply list_elem_of_fmap in Hfs as (f' & [= -> ->] & _). done.
  - intros n' Hn. eexists. split; [by apply recommend_movies_built|].
    by apply df_head_prefix.
Qed.

Lemma recommend_output_witness :
  ∃ p, user_profiles ex_env !! 7 = Some (Some p)
    ∧ ∀ f s,
        (f, s) ∈ df_head 5 (sort_values snd (candidates ex_env 7 p)) →
        s = similarity (Qc2R <$> p) (IZR <$> f_genres f).
Proof.
  assert (∃ p, user_profiles ex_env !! 7 = Some (Some p)) as [p Hp]
    by pick_profile.
  destruct (recommend_output ex_ratings ex_movies 7 5
              (df_head 5 (sort_values snd (candidates ex_env 7 p)))
              (with_similarity ex_env p))
    as (q & Hq & _ & Hrows & _).
  { by apply recommend_movies_built. }
  exists q. split; [exact Hq|]. intros f s Hfs.
  assert (q = p) as -> by (unfold ex_env in *; congruence).
  by apply Hrows.
Defined.

(** X10: with a negative [top_n] the call does not fail: [head] drops the
    last [-top_n] rows of the ranking, so the answer has that many rows fewer
    than there are candidates (none when there are not enough). *)
Theorem recommend_negative_top_n ratings movies user_id top_n p :
  let e := build_model ratings movies in
  user_profiles e !! user_id = Some (Some p) →
  (top_n < 0)%Z →
  ∃ out e',
    recommend_movies e user_id top_n = (inr out, e')
    ∧ out `prefix_of` sort_values snd (candidates e user_id p)
    ∧ length out
      = (length (filter (λ f, f_movieId f ∉ raw_rated ratings user_id)
                        (mf_rows (movie_features e)))
         - Z.to_nat (- top_n))%nat.
Proof.
  intros e Hp Hn. subst e. eexists _, _.
  split; [by apply recommend_movies_built|].
  unfold df_head. rewrite decide_False by lia.
  split; [apply prefix_take|].
  rewrite length_take, (Permutation_length (sort_values_perm _ _)).
  rewrite length_candidates. lia.
Qed.

Lemma recommend_negative_top_n_witness :
  ∃ out e',
    recommend_movies (build_model tie_ratings tie_movies) 1 (-1)
      = (inr out, e')
    ∧ length out
      = (length (filter (λ f, f_movieId f ∉ raw_rated tie_ratings 1)
                        (mf_rows (movie_features
                                    (build_model tie_ratings tie_movies))))
         - Z.to_nat (- -1))%nat.
Proof.
  assert (∃ p, user_profiles (build_model tie_ratings tie_movies) !! 1
               = Some (Some p)) as [p Hp] by pick_profile.
  destruct (recommend_negative_top_n tie_ratings tie_movies 1 (-1) p Hp)
    as (out & e' & Hrec & _ & Hlen); [lia|].
  by exists out, e'.
Defined.

(** ** A zero rating mass *)

(** X11: for a user whose profile is the non-finite vector (the ratings on
    the user's rows sum to zero), [recommend_movies] raises [ValueError] and
    leaves the globals as they were; [predict_rating] raises [KeyError] when
    the movie is not in the catalog (the lookup comes first) and [ValueError]
    otherwise. *)
Theorem zero_rating_mass_raises e user_id top_n movie_id :
  user_profiles e !! user_id = Some None →
  recommend_movies e user_id top_n = (inl ValueError, e)
  ∧ predict_rating e user_id movie_id
    = if decide (movie_id ∈ f_movieId <$> mf_rows (movie_features e))
      then inl ValueError else inl KeyError.
Proof.
  intros Hp. split.
  - unfold recommend_movies. by rewrite Hp.
  - unfold predict_rating. rewrite Hp. case_decide as Hm.
    + destruct (loc movie_id (movie_features e)) eqn:Hloc; [done|].
      by apply loc_None in Hloc.
    + apply loc_None in Hm. by rewrite Hm.
Qed.

Lemma zero_rating_mass_raises_witness :
  recommend_movies (build_model zero_ratings half_movies) 1 5
    = (inl ValueError, build_model zero_ratings half_movies)
  ∧ predict_rating (build_model zero_ratings half_movies) 1 10
    = inl ValueError.
Proof.
  destruct (zero_rating_mass_raises
              (build_model zero_ratings half_movies) 1 5 10) as [Hrec Hpred].
  - by vm_compute.
  - split; [exact Hrec|]. rewrite Hpred. apply decide_True.
    apply (bool_decide_unpack _). by vm_compute.
Defined.

(** ** Successive recommendations *)

(** X12: the [similarity] column always holds the scores of the most recent
    call that returned: after a call for one user, a call for another user
    gives the same answer and leaves the same globals as if the first call
    had not been made, and a call that raises leaves the column of the
    earlier call in place. *)
Theorem recommend_last_writer e user_id top_n user_id' top_n' :
  let e1 := (recommend_movies e user_id top_n).2 in
  (recommend_movies e1 user_id' top_n').1
  = (recommend_movies e user_id' top_n').1
  ∧ (∀ out, (recommend_movies e user_id' top_n').1 = inr out →
       (recommend_movies e1 user_id' top_n').2
       = (recommend_movies e user_id' top_n').2)
  ∧ (∀ err, (recommend_movies e user_id' top_n').1 = inl err →
       (recommend_movies e1 user_id' top_n').2 = e1).
Proof.
  intros e1.
  assert (df_genres e1 = df_genres e ∧ genre_cols e1 = genre_cols e
          ∧ user_profiles e1 = user_profiles e
          ∧ mf_rows (movie_features e1) = mf_rows (movie_features e))
    as (Hdf & Hcols & Hprof & Hrows).
  { unfold e1, recommend_movies.
    destruct (user_profiles e !! user_id); [|done].
    by destruct (cosine_similarity _ _). }
  split; [by apply recommend_movies_ext|]. clearbody e1.
  unfold recommend_movies, movie_vectors_of. rewrite Hprof, Hrows.
  destruct (user_profiles e !! user_id') as [q|]; [|by split].
  destruct (cosine_similarity _ _); [by split|].
  split; [|done]. intros out _. cbn [snd].
  by rewrite ?Hdf, ?Hcols, ?Hprof, ?Hrows.
Qed.

Lemma recommend_last_writer_witness :
  (recommend_movies (recommend_movies ex_env 8 5).2 7 5).2
  = (recommend_movies ex_env 7 5).2.
Proof.
  destruct ex_profile_7 as (p & Hp & _).
  destruct (recommend_last_writer ex_env 8 5 7 5) as (_ & H & _).
  apply (H (df_head 5 (sort_values snd (candidates ex_env 7 p)))).
  unfold ex_env in *. by rewrite (recommend_movies_built _ _ _ _ _ Hp).
Defined.

(** ** The score of a catalog movie *)

Section score.
Local Open Scope R_scope.

Lemma dot_one_hot_absent cats g (u : list R) :
  g ∉ cats → dot u (IZR <$> one_hot cats g) = 0.
Proof.
  unfold dot, one_hot. revert u.
  induction cats as [|c cats IH]; intros [|a u] Hg; csimpl; try done.
  rewrite decide_False by (intros ->; apply Hg; by left).
  rewrite IH by (intros ?; apply Hg; by right). lra.
Qed.

(** The product with a one-hot vector picks the component in its column. *)
Lemma dot_one_hot cats g (u : list R) i a :
  NoDup cats → cats !! i = Some g → u !! i = Some a →
  dot u (IZR <$> one_hot cats g) = a.
Proof.
  intros Hnd. revert u i.
  induction Hnd as [|c cats Hc Hnd IH]; intros [|a0 u] [|i] Hi Ha;
    try done; cbn [lookup list_lookup] in Hi, Ha; simplify_eq.
  - change (dot (a :: u) (IZR <$> one_hot (g :: cats) g))
      with (a * IZR (if decide (g = g) then 1 else 0)%Z
            + dot u (IZR <$> one_hot cats g)).
    rewrite decide_True by done. rewrite dot_one_hot_absent by done. lra.
  - change (dot (a0 :: u) (IZR <$> one_hot (c :: cats) g))
      with (a0 * IZR (if decide (c = g) then 1 else 0)%Z
            + dot u (IZR <$> one_hot cats g)).
    rewrite decide_False.
    + rewrite (IH u i) by done. lra.
    + intros ->. apply Hc. by eapply list_elem_of_lookup_2.
Qed.

Lemma sum_squares_one_hot_absent cats g :
  g ∉ cats → sum_squares (IZR <$> one_hot cats g) = 0.
Proof.
  unfold sum_squares, one_hot.
  induction cats as [|c cats IH]; intros Hg; csimpl; [done|].
  rewrite decide_False by (intros ->; apply Hg; by left).
  rewrite IH by (intros ?; apply Hg; by right). lra.
Qed.

Lemma row_norms_one_hot_eq cats g :
  NoDup cats → g ∈ cats → row_norms (IZR <$> one_hot cats g) = 1.
Proof.
  intros Hnd Hg.
  assert (sum_squares (IZR <$> one_hot cats g) = 1) as Hsq.
  { induction Hnd as [|c cats Hc Hnd IH]; [by apply elem_of_nil in Hg|].
    change (sum_squares (IZR <$> one_hot (c :: cats) g))
      with (IZR (if decide (c = g) then 1 else 0)%Z
            * IZR (if decide (c = g) then 1 else 0)%Z
            + sum_squares (IZR <$> one_hot cats g)).
    destruct (decide (c = g)) as [->|Hne].
    - rewrite sum_squares_one_hot_absent by done. lra.
    - rewrite IH; [lra|].
      apply elem_of_cons in Hg as [?|?]; [congruence|done]. }
  unfold row_norms. fold (sum_squares (IZR <$> one_hot cats g)).
  rewrite Hsq. apply sqrt_1.
Qed.

Lemma Qc2R_le (a b : Qc) : (a ≤ b)%Qc ↔ Qc2R a <= Qc2R b.
Proof. unfold Qc2R. split; [apply Qle_Rle|apply Rle_Qle]. Qed.

(** X13: the score of a catalog movie is the component of the user's profile
    in the column of the movie's single catalog label, divided by the norm of
    the profile; so the ranking orders the movies by that one component, and
    movies with the same catalog label always tie. *)
Theorem score_is_profile_component ratings movies user_id p f :
  let e := build_model ratings movies in
  let cats := categories (clean ratings movies) in
  let score f := similarity (Qc2R <$> p) (IZR <$> f_genres f) in
  user_profiles e !! user_id = Some (Some p) →
  f ∈ mf_rows (movie_features e) →
  0 < row_norms (Qc2R <$> p)
  ∧ ∃ g i q,
      cats !! i = Some g ∧ f_genres f = one_hot cats g ∧ p !! i = Some q
      ∧ score f = Qc2R q / row_norms (Qc2R <$> p)
      ∧ ∀ f' g' i' q',
          f' ∈ mf_rows (movie_features e) →
          cats !! i' = Some g' → f_genres f' = one_hot cats g' →
          p !! i' = Some q' →
          (score f' <= score f ↔ (q' ≤ q)%Qc).
Proof.
  intros e cats score Hp Hf. subst e cats score.
  pose proof (row_norms_profile _ _ _ _ Hp) as Hnz.
  pose proof (row_norms_nonneg (Qc2R <$> p)) as Hn0.
  assert (0 < row_norms (Qc2R <$> p)) as Hnorm by lra.
  split; [done|].
  destruct (profile_dims _ _ _ _ Hp) as (Hlen & _ & _).
  assert (∀ f g i q,
            categories (clean ratings movies) !! i = Some g →
            f_genres f = one_hot (categories (clean ratings movies)) g →
            p !! i = Some q →
            similarity (Qc2R <$> p) (IZR <$> f_genres f)
            = Qc2R q / row_norms (Qc2R <$> p)) as Hscore.
  { intros f0 g i q Hi Hvec Hq. rewrite Hvec.
    assert (g ∈ categories (clean ratings movies)) as Hg
      by (by eapply list_elem_of_lookup_2).
    rewrite similarity_formula.
    - rewrite row_norms_one_hot_eq by (done || apply NoDup_categories).
      rewrite (dot_one_hot _ _ _ i (Qc2R q)).
      + by rewrite Rmult_1_r.
      + apply NoDup_categories.
      + done.
      + by rewrite list_lookup_fmap, Hq.
    - done.
    - by apply row_norms_one_hot. }
  apply elem_of_mf_rows in Hf as (x & Hx & ->).
  assert (genres x ∈ categories (clean ratings movies)) as Hg
    by (apply elem_of_categories; eauto).
  apply list_elem_of_lookup_1 in Hg as [i Hi].
  destruct (lookup_lt_is_Some_2 p i) as [q Hq].
  { rewrite Hlen. by eapply lookup_lt_Some. }
  pose proof (Hscore (Feature (movieId x) (title x)
                        (one_hot (categories (clean ratings movies))
                                 (genres x)))
                (genres x) i q Hi eq_refl Hq) as Hs.
  exists (genres x), i, q.
  split; [done|]. split; [done|]. split; [done|]. split; [exact Hs|].
  intros f' g' i' q' _ Hi' Hvec' Hq'.
  rewrite Hs, (Hscore f' g' i' q' Hi' Hvec' Hq'). split.
  - intros Hle. apply Qc2R_le.
    apply (Rmult_le_reg_r (/ row_norms (Qc2R <$> p)));
      [by apply Rinv_0_lt_compat|done].
  - intros Hle%Qc2R_le.
    apply Rmult_le_compat_r; [|done].
    apply Rlt_le. by apply Rinv_0_lt_compat.
Qed.
End score.

Lemma score_is_profile_component_witness :
  ∃ p, user_profiles ex_env !! 7 = Some (Some p)
       ∧ (0 < row_norms (Qc2R <$> p))%R.
Proof.
  assert (∃ p, user_profiles ex_env !! 7 = Some (Some p)) as [p Hp]
    by pick_profile.
  exists p. split; [exact Hp|].
  apply (score_is_profile_component ex_ratings ex_movies 7 p
           (Feature 3 "Three" [1; 0])); [exact Hp|].
  apply list_elem_of_In. vm_compute. right. right. left. reflexivity.
Defined.

(** ** Prediction against recommendation *)

Lemma predict_rating_inr e user_id movie_id x :
  predict_rating e user_id movie_id = inr x →
  ∃ p f, user_profiles e !! user_id = Some (Some p)
         ∧ loc movie_id (movie_features e) = Some f.
Proof.
  unfold predict_rating.
  destruct (user_profiles e !! user_id) as [[p|]|]; [| |done].
  - destruct (loc movie_id (movie_features e)) as [f|]; [|done]. eauto.
  - by destruct (loc movie_id (movie_features e)).
Qed.

(** A returned frame means the validation passed: the stored vector has at
    least one component, as many as the first catalog vector. *)
Lemma recommend_movies_inr_dims e user_id top_n out e' :
  recommend_movies e user_id top_n = (inr out, e') →
  ∃ p, user_profiles e !! user_id = Some (Some p)
       ∧ (0 < length p)%nat
       ∧ n_features (movie_vectors_of (movie_features e)) = length p.
Proof.
  unfold recommend_movies.
  destruct (user_profiles e !! user_id) as [[p|]|] eqn:Hp; simpl; try done.
  destruct (check_pairwise_arrays _ _) eqn:Hc; simpl; [|done].
  intros _. exists p. split; [done|].
  apply bool_decide_eq_true in Hc as (_ & _ & Hpos & Hn).
  simpl in Hpos, Hn. rewrite length_fmap in Hpos, Hn. done.
Qed.

(** X14: the rating predicted for a recommended movie is the similarity shown
    beside it in the recommendation multiplied by the sum of the user's
    stored vector, whether the prediction is asked before or after the
    recommendation was computed.  This holds on any globals whose movie index
    is unique and whose movie vectors all have the same length, and so on
    every model built from raw inputs. *)
Theorem predict_rating_is_recommended_score :
  (∀ e user_id top_n out e' f s,
     NoDup (f_movieId <$> mf_rows (movie_features e)) →
     (∀ f1 f2, f1 ∈ mf_rows (movie_features e) →
               f2 ∈ mf_rows (movie_features e) →
               length (f_genres f1) = length (f_genres f2)) →
     recommend_movies e user_id top_n = (inr out, e') →
     (f, s) ∈ out →
     ∃ p, user_profiles e !! user_id = Some (Some p)
          ∧ predict_rating e user_id (f_movieId f)
            = inr (s * sum_R (Qc2R <$> p))%R
          ∧ predict_rating e' user_id (f_movieId f)
            = inr (s * sum_R (Qc2R <$> p))%R)
  ∧ (∀ ratings movies user_id top_n out e' f s,
       let e := build_model ratings movies in
       recommend_movies e user_id top_n = (inr out, e') →
       (f, s) ∈ out →
       ∃ p, user_profiles e !! user_id = Some (Some p)
            ∧ predict_rating e user_id (f_movieId f)
              = inr (s * sum_R (Qc2R <$> p))%R
            ∧ predict_rating e' user_id (f_movieId f)
              = inr (s * sum_R (Qc2R <$> p))%R).
Proof.
  assert (∀ e user_id top_n out e' f s,
     NoDup (f_movieId <$> mf_rows (movie_features e)) →
     (∀ f1 f2, f1 ∈ mf_rows (movie_features e) →
               f2 ∈ mf_rows (movie_features e) →
               length (f_genres f1) = length (f_genres f2)) →
     recommend_movies e user_id top_n = (inr out, e') →
     (f, s) ∈ out →
     ∃ p, user_profiles e !! user_id = Some (Some p)
          ∧ predict_rating e user_id (f_movieId f)
            = inr (s * sum_R (Qc2R <$> p))%R
          ∧ predict_rating e' user_id (f_movieId f)
            = inr (s * sum_R (Qc2R <$> p))%R) as Hany.
  { intros e user_id top_n out e' f s Hnd Hrect Hrec Hfs.
    destruct (recommend_movies_inr_dims _ _ _ _ _ Hrec)
      as (p & Hp & Hpos & Hdim).
    apply recommend_movies_inr in Hrec as (p' & Hp' & -> & ->).
    assert (p' = p) as -> by congruence.
    exists p. split; [done|].
    apply elem_of_df_head in Hfs. rewrite sort_values_perm in Hfs.
    pose proof (elem_of_candidates _ _ _ _ _ Hfs) as [Hf _].
    rewrite candidates_eq in Hfs.
    apply list_elem_of_fmap in Hfs as (f' & [= <- ->] & _).
    assert (length (f_genres f) = length p) as Hlen.
    { rewrite <-Hdim. unfold movie_vectors_of.
      destruct (mf_rows (movie_features e)) as [|f0 l] eqn:Hrows;
        [by apply elem_of_nil in Hf|].
      simpl. rewrite length_fmap. apply Hrect; [done|by left]. }
    assert (predict_rating e user_id (f_movieId f)
            = inr (similarity (Qc2R <$> p) (IZR <$> f_genres f)
                   * sum_R (Qc2R <$> p))%R) as Hpred.
    { apply predict_rating_valid; try done. by apply loc_unique_row. }
    split; [done|]. rewrite <-Hpred. by apply predict_rating_ext. }
  split; [exact Hany|].
  intros ratings movies user_id top_n out e' f s e Hrec Hfs.
  apply (Hany e user_id top_n out e' f s); try done.
  - apply NoDup_catalog_ids.
  - intros f1 f2 (x1 & _ & ->)%elem_of_mf_rows (x2 & _ & ->)%elem_of_mf_rows.
    simpl. by rewrite !length_one_hot.
Qed.

Lemma predict_rating_is_recommended_score_witness :
  user_profiles scaled_env !! 1 = Some (Some [Q2Qc 3; Q2Qc 1])
  ∧ ∀ f s,
      (f, s) ∈ df_head 5 (sort_values snd
                            (candidates scaled_env 1 [Q2Qc 3; Q2Qc 1])) →
      ∃ p, user_profiles scaled_env !! 1 = Some (Some p)
           ∧ predict_rating scaled_env 1 (f_movieId f)
             = inr (s * sum_R (Qc2R <$> p))%R
           ∧ predict_rating (with_similarity scaled_env [Q2Qc 3; Q2Qc 1]) 1
                            (f_movieId f)
             = inr (s * sum_R (Qc2R <$> p))%R.
Proof.
  split; [reflexivity|]. intros f s Hfs.
  destruct predict_rating_is_recommended_score as [H _].
  apply (H scaled_env 1 5
           (df_head 5 (sort_values snd
                         (candidates scaled_env 1 [Q2Qc 3; Q2Qc 1])))
           (with_similarity scaled_env [Q2Qc 3; Q2Qc 1]) f s).
  - apply (bool_decide_unpack _). by vm_compute.
  - intros f1 f2 H1 H2. apply list_elem_of_In in H1, H2. simpl in H1, H2.
    destruct H1 as [<-|[<-|[]]], H2 as [<-|[<-|[]]]; reflexivity.
  - apply recommend_movies_valid; [reflexivity|].
    apply bool_decide_eq_true_2. simpl. repeat split; (done || lia).
  - exact Hfs.
Defined.

(** A score is the quotient of a non-negative component by a positive norm. *)
Lemma score_bounds_helper ratings movies user_id p f :
  (∀ r, r ∈ ratings → r_userId r = user_id → (0 ≤ r_rating r)%Qc) →
  user_profiles (build_model ratings movies) !! user_id = Some (Some p) →
  f ∈ mf_rows (movie_features (build_model ratings movies)) →
  (0 <= similarity (Qc2R <$> p) (IZR <$> f_genres f) <= 1)%R.
Proof.
  intros Hpos Hp Hf. split; [|apply similarity_range].
  pose proof (row_norms_profile _ _ _ _ Hp) as Hnz.
  pose proof (row_norms_nonneg (Qc2R <$> p)) as Hn0.
  destruct (profile_dims _ _ _ _ Hp) as (Hlen & _ & _).
  apply elem_of_mf_rows in Hf as (x & Hx & ->). cbn [f_genres].
  assert (genres x ∈ categories (clean ratings movies)) as Hg
    by (apply elem_of_categories; eauto).
  pose proof Hg as Hg'. apply list_elem_of_lookup_1 in Hg' as [i Hi].
  destruct (lookup_lt_is_Some_2 p i) as [q Hq].
  { rewrite Hlen. by eapply lookup_lt_Some. }
  rewrite similarity_formula; [|done|by apply row_norms_one_hot].
  rewrite row_norms_one_hot_eq by (done || apply NoDup_categories).
  rewrite (dot_one_hot _ _ _ i (Qc2R q));
    [|apply NoDup_categories|done|by rewrite list_lookup_fmap, Hq].
  rewrite Rmult_1_r.
  assert (0 ≤ q)%Qc as Hq0.
  { pose proof (profile_components_bounded_aux ratings movies user_id p
                  Hpos Hp) as Hall.
    rewrite Forall_forall in Hall.
    apply (Hall q). by eapply list_elem_of_lookup_2. }
  apply Qc2R_le in Hq0. rewrite Qc2R_0 in Hq0.
  apply Rmult_le_pos; [done|].
  apply Rlt_le, Rinv_0_lt_compat. lra.
Qed.

(** X15: when none of the user's ratings is negative, every predicted rating
    lies between 0 and 1, whatever scale the ratings use. *)
Theorem predict_rating_unit_interval ratings movies user_id movie_id x :
  (∀ r, r ∈ ratings → r_userId r = user_id → (0 ≤ r_rating r)%Qc) →
  predict_rating (build_model ratings movies) user_id movie_id = inr x →
  (0 <= x <= 1)%R.
Proof.
  intros Hpos Hx.
  destruct (predict_rating_inr _ _ _ _ Hx) as (p & f & Hp & Hf).
  rewrite (predict_rating_built _ _ _ _ p f Hp Hf) in Hx.
  rewrite sum_R_Qc2R, (sum_Qc_profile _ _ _ _ Hp), Qc2R_1 in Hx.
  injection Hx as <-. rewrite Rmult_1_r.
  split; [|apply similarity_range].
  apply loc_Some in Hf as [Hf _].
  destruct (score_bounds_helper ratings movies user_id p f Hpos Hp Hf)
    as [H0 _]. done.
Qed.

Lemma predict_rating_unit_interval_witness :
  ∃ x, predict_rating ex_env 7 3 = inr x ∧ (0 <= x <= 1)%R.
Proof.
  assert (∃ p, user_profiles ex_env !! 7 = Some (Some p)) as [p Hp]
    by pick_profile.
  assert (loc 3 (movie_features ex_env) = Some (Feature 3 "Three" [1; 0]))
    as Hf by by_evaluation.
  eexists. split.
  - unfold ex_env in *. apply (predict_rating_built _ _ _ _ p _ Hp Hf).
  - apply (predict_rating_unit_interval ex_ratings ex_movies 7 3).
    + intros r Hr _. apply list_elem_of_In in Hr. simpl in Hr.
      destruct Hr as [<-|[<-|[<-|[]]]]; by vm_compute.
    + unfold ex_env in *. apply (predict_rating_built _ _ _ _ p _ Hp Hf).
Defined.

(** ** The join *)

Lemma merge_cons r ratings movies :
  merge (r :: ratings) movies = merge [r] movies ++ merge ratings movies.
Proof. unfold merge. by rewrite bind_cons, bind_singleton. Qed.

Lemma length_merge_one r movies :
  length (merge [r] movies)
  = length (filter (λ m, m_movieId m = r_movieId r) movies).
Proof.
  unfold merge. rewrite bind_singleton.
  induction movies as [|m movies IH]; [done|].
  rewrite bind_cons, length_app, IH, filter_cons.
  destruct (decide (r_movieId r = m_movieId m)) as [Heq|Hne].
  - by rewrite decide_True.
  - by rewrite decide_False.
Qed.

Lemma merge_one_unique r movies :
  NoDup (m_movieId <$> movies) → r_movieId r ∈ m_movieId <$> movies →
  to_rating <$> merge [r] movies = [r].
Proof.
  unfold merge. rewrite bind_singleton.
  induction movies as [|m movies IH]; intros Hnd Hin.
  - by apply elem_of_nil in Hin.
  - rewrite fmap_cons in Hnd, Hin. apply NoDup_cons in Hnd as [Hm Hnd].
    rewrite bind_cons, fmap_app.
    destruct (decide (r_movieId r = m_movieId m)) as [Heq|Hne].
    + assert (movies ≫= (λ m0, if decide (r_movieId r = m_movieId m0)
                               then [Row (r_userId r) (r_movieId r)
                                         (r_rating r) (r_timestamp r)
                                         (m_title m0) (m_genres m0)]
                               else []) = []) as ->.
      { clear IH Hnd Hin. rewrite Heq in *.
        induction movies as [|m' movies IH']; [done|].
        rewrite bind_cons, decide_False.
        - apply IH'. intros ?. apply Hm. by right.
        - intros Heq'. apply Hm. rewrite Heq'. by left. }
      destruct r. done.
    + apply elem_of_cons in Hin as [?|Hin]; [done|]. by rewrite IH.
Qed.

(** X17: the merge is an inner join: each rating row yields one row per movie
    row with its movie id, so a rating of a movie id that [movies] does not
    list leaves no row; and when the movie ids in [movies] are distinct and
    cover the rated ids, the merged frame carries exactly the rating rows, in
    their order. *)
Theorem merge_inner_join ratings movies :
  length (merge ratings movies)
  = sum_list ((λ r, length (filter (λ m, m_movieId m = r_movieId r) movies))
                <$> ratings)
  ∧ (∀ x, x ∈ merge ratings movies →
          to_rating x ∈ ratings ∧ movieId x ∈ m_movieId <$> movies)
  ∧ (NoDup (m_movieId <$> movies) →
     (∀ r, r ∈ ratings → r_movieId r ∈ m_movieId <$> movies) →
     to_rating <$> merge ratings movies = ratings).
Proof.
  split; [|split].
  - induction ratings as [|r ratings IH]; [done|].
    by rewrite merge_cons, length_app, length_merge_one, IH.
  - intros x (r & m & Hr & Hm & Heq & ->)%elem_of_merge. split.
    + unfold to_rating. simpl. by destruct r.
    + simpl. rewrite Heq. by apply list_elem_of_fmap_2.
  - intros Hnd Hall. induction ratings as [|r ratings IH]; [done|].
    rewrite merge_cons, fmap_app, merge_one_unique, IH; try done.
    + intros r' Hr'. apply Hall. by right.
    + apply Hall. by left.
Qed.

Lemma merge_inner_join_witness :
  to_rating <$> merge ex_ratings ex_movies = ex_ratings.
Proof.
  apply (merge_inner_join ex_ratings ex_movies).
  - apply (bool_decide_unpack _). by vm_compute.
  - intros r Hr. apply list_elem_of_In in Hr. simpl in Hr.
    destruct Hr as [<-|[<-|[<-|[]]]];
      apply (bool_decide_unpack _); by vm_compute.
Defined.
